(** * CartPole: bucketing of observations and the lazily built action table

    A shallow embedding of [utils/datastructures.py]:

    - [Bucketer.get_bucketed]                                   (lines 40-57),
    - [MultiBucketer.__init__] and [MultiBucketer.get_bucketed] (lines 68-76),
    - [ObservationDict.__init__] and [ObservationDict.get]      (lines 86-120),

    and of the test that decides in [main.py] whether an episode writes a
    checkpoint, with the number it is written under (lines 45-46).

    Numbers.  Python numbers are duck typed: the bucketing code only adds,
    multiplies, divides, takes absolute values and compares.  The embedding is
    written once over an interface [Number] and instantiated with [Q],
    arithmetic without rounding (Python's [fractions.Fraction]), with the
    kernel's binary64 floats (Python's [float]) and with binary64 floats whose
    division by zero does not raise ([numpy.float64]).  Bucket counts, loop
    counters and buckets are Python ints, here [Z].

    Element types.  A leaf of the table is [numpy.full(n_actions, init_value)];
    numpy takes the element type of the array from [init_value] and converts
    to it whatever is assigned to an element.  An element type is an instance
    of [Dtype]: int64 and float64.

    Objects.  The nested dicts and the numpy arrays at their leaves are shared
    and mutated; they live in an explicit heap, and a reference is a heap
    location, so that identity and aliasing can be stated.  Exceptions do not
    undo what was stored before they were raised: [get] returns its outcome
    together with the heap.

    Keys.  The keys of the dicts are Python ints, as a bucketer produces
    them.  Without a bucketer the observation itself must be a sequence of
    ints; other hashable keys are not modelled. *)

From Stdlib Require Import ZArith QArith Qabs Qround Lia Lqa PrimFloat Uint63.
From Stdlib Require Import SpecFloat FloatOps FloatAxioms.
From stdpp Require Import base option list gmap.

Set Warnings "-inexact-float".

(** ** Exceptions and results *)

Inductive exn :=
  | ZeroDivisionError     (* [/] and [%] of Python numbers by zero *)
  | UnboundLocalError     (* [bucket] read after a loop that never ran *)
  | AssertionError        (* the [assert] of [MultiBucketer.__init__] *)
  | IndexError            (* numpy: index out of range, or index into a scalar *)
  | InvalidReference.     (* a location that was never allocated; no Python
                             program can produce one *)

Inductive result (T : Type) :=
  | Ok (x : T)
  | Raise (e : exn).
Arguments Ok {T} x.
Arguments Raise {T} e.

#[global] Instance result_ret : MRet result := λ T x, Ok x.
#[global] Instance result_bind : MBind result := λ T U f m,
  match m with
  | Ok x => f x
  | Raise e => Raise e
  end.

Definition succeeds {T} (m : result T) : Prop := ∃ x, m = Ok x.

(** ** Numbers *)

Class Number (A : Type) := {
  of_int : Z → A;               (* an [int] operand meeting an [A] operand *)
  num_abs : A → A;              (* [abs(x)] *)
  num_add : A → A → A;          (* [x + y] *)
  num_mul : A → A → A;          (* [x * y] *)
  num_div : A → A → A;          (* [x / y], where it does not raise *)
  div_zero_raises : bool;       (* [x / 0] raises ZeroDivisionError *)
  num_le : A → A → bool;        (* [x <= y] *)
  num_lt : A → A → bool;        (* [x < y] *)
  int_eq : Z → A → bool;        (* [i == x] for an [int] i *)
}.

(** Exact rationals. *)
#[global] Instance Q_number : Number Q := {|
  of_int := inject_Z;
  num_abs := Qabs;
  num_add := Qplus;
  num_mul := Qmult;
  num_div := Qdiv;
  div_zero_raises := true;
  num_le := Qle_bool;
  num_lt := λ x y, negb (Qle_bool y x);
  int_eq := λ i x, Qeq_bool (inject_Z i) x;
|}.

(** binary64.  [float(z)]: the float nearest to the int [z], ties to even;
    an int beyond the largest float becomes an infinity here, where Python
    raises OverflowError. *)
Definition float_of_int (z : Z) : float :=
  SF2Prim (binary_normalize prec emax z 0 false).

(** [int(x)]: a finite float [±m·2^e] without its fractional part (rounded
    towards zero); there is none for an infinity or a NaN. *)
Definition int_of_float (x : float) : option Z :=
  match Prim2SF x with
  | S754_zero _ => Some 0%Z
  | S754_finite sign m e =>
      let magnitude := Z.shiftl (Z.pos m) e in
      Some (if sign then (- magnitude)%Z else magnitude)
  | S754_infinity _ | S754_nan => None
  end.

(** [x] is finite and has no fractional part. *)
Definition float_is_integer (x : float) : bool :=
  match Prim2SF x with
  | S754_zero _ => true
  | S754_finite _ m e => (Z.shiftl (Z.shiftl (Z.pos m) e) (- e) =? Z.pos m)%Z
  | S754_infinity _ | S754_nan => false
  end.

(** [i == x] for an int and a float: Python compares the exact values. *)
Definition float_int_eq (i : Z) (x : float) : bool :=
  float_is_integer x &&
  match int_of_float x with
  | Some z => (i =? z)%Z
  | None => false
  end.

#[global] Instance float_number : Number float := {|
  of_int := float_of_int;
  num_abs := PrimFloat.abs;
  num_add := PrimFloat.add;
  num_mul := PrimFloat.mul;
  num_div := PrimFloat.div;
  div_zero_raises := true;
  num_le := PrimFloat.leb;
  num_lt := PrimFloat.ltb;
  int_eq := float_int_eq;
|}.

(** [numpy.float64]: the same arithmetic, but a division by zero gives an
    infinity or a NaN (and a warning) instead of an exception, and an int is
    converted to float64 before it is compared.  Not an instance: [float]
    stands for Python's float unless this one is named. *)
Definition numpy_float_number : Number float := {|
  of_int := float_of_int;
  num_abs := PrimFloat.abs;
  num_add := PrimFloat.add;
  num_mul := PrimFloat.mul;
  num_div := PrimFloat.div;
  div_zero_raises := false;
  num_le := PrimFloat.leb;
  num_lt := PrimFloat.ltb;
  int_eq := λ i x, PrimFloat.eqb (float_of_int i) x;
|}.

(** [range(n)] *)
Definition range (n : Z) : list Z := Z.of_nat <$> seq 0 (Z.to_nat n).

(** ** Bucketer *)

Module Bucketer.
Section bucketer.
Context {A : Type} `{Number A}.

Record t := Build {
  lower_bound : A;
  upper_bound : A;
  n_buckets : Z;
}.

(** The right-hand side of line 48. *)
Definition step_expr (self : t) : A :=
  num_add (num_div (num_abs (lower_bound self)) (of_int (n_buckets self)))
          (num_div (num_abs (upper_bound self)) (of_int (n_buckets self))).

(** Line 48.  Both quotients divide by [n_buckets]; when it is zero the
    division raises or not, as the numbers have it. *)
Definition step_size (self : t) : result A :=
  if (n_buckets self =? 0)%Z && div_zero_raises then Raise ZeroDivisionError
  else Ok (step_expr self).

(** [self.lower_bound + bucket * step_size] *)
Definition edge (self : t) (step : A) (bucket : Z) : A :=
  num_add (lower_bound self) (num_mul (of_int bucket) step).

(** The test of line 51. *)
Definition in_bucket (self : t) (step value : A) (bucket : Z) : bool :=
  num_le (edge self step bucket) value && num_lt value (edge self step (bucket + 1)).

(** Lines 50-52.  [inl b]: the loop returned [b].  [inr last]: the loop ran
    to its end, and [last] is the value the variable [bucket] is left with
    ([None] when the loop body never ran). *)
Fixpoint for_bucket (self : t) (step value : A) (todo : list Z) (last : option Z)
  : Z + option Z :=
  match todo with
  | [] => inr last
  | bucket :: todo' =>
      if in_bucket self step value bucket then inl bucket
      else for_bucket self step value todo' (Some bucket)
  end.

(** Lines 48-57. *)
Definition get_bucketed (self : t) (value : A) : result Z :=
  step ← step_size self;
  match for_bucket self step value (range (n_buckets self)) None with
  | inl bucket => Ok bucket
  | inr None => Raise UnboundLocalError
  | inr (Some bucket) =>
      if int_eq bucket (upper_bound self) then Ok (n_buckets self) else Ok (-1)%Z
  end.
End bucketer.
Arguments t A : clear implicits.
End Bucketer.

(** ** MultiBucketer *)

Module MultiBucketer.
Section multibucketer.
Context {A : Type} `{Number A}.

Record t := Build {
  n : nat;
  n_buckets : Z;
  bucketers : list (Bucketer.t A);
}.

(** [zip(lower_bounds, upper_bounds)] with the comprehension of line 73. *)
Fixpoint make_bucketers (lower_bounds upper_bounds : list A) (n_buckets : Z)
  : list (Bucketer.t A) :=
  match lower_bounds, upper_bounds with
  | lower :: lowers, upper :: uppers =>
      Bucketer.Build lower upper n_buckets :: make_bucketers lowers uppers n_buckets
  | _, _ => []
  end.

(** Lines 68-73. *)
Definition init (lower_bounds upper_bounds : list A) (n_buckets : Z) : result t :=
  if decide (length lower_bounds = length upper_bounds) then
    Ok (Build (length lower_bounds) n_buckets
              (make_bucketers lower_bounds upper_bounds n_buckets))
  else Raise AssertionError.

(** Line 76: the comprehension over [zip(self.bucketers, values)].  [zip]
    stops at the end of the shorter sequence; an exception of a bucketer
    ends the comprehension. *)
Fixpoint bucket_all (bucketers : list (Bucketer.t A)) (values : list A)
  : result (list Z) :=
  match bucketers, values with
  | bucketer :: bucketers', value :: values' =>
      b ← Bucketer.get_bucketed bucketer value;
      bs ← bucket_all bucketers' values';
      Ok (b :: bs)
  | _, _ => Ok []
  end.

Definition get_bucketed (self : t) (values : list A) : result (list Z) :=
  bucket_all (bucketers self) values.
End multibucketer.
Arguments t A : clear implicits.
End MultiBucketer.

(** ** numpy element types

    A leaf of the table is [numpy.full(n_actions, init_value)]
    (datastructures.py, line 116).  numpy gives the array the element type of
    [init_value], int64 for a Python int and float64 for a Python float, and
    an assignment [v[a] = x] stores [x] converted to that type.  An element
    type is a type [E] with this conversion; the elements of a leaf are of
    type [E], and so is [init_value] as the leaf holds it:
    [ObservationDict(0, 2)] is a table with [E := Z] and [init_value := 0],
    [ObservationDict(0.0, 2)] one with [E := float].  What is assigned is a
    Python int or a Python float. *)
Inductive pynum :=
  | PyInt (z : Z)
  | PyFloat (x : float).

Class Dtype (E : Type) := {
  cast : pynum → option E;      (* what [v[a] = x] stores; [None]: numpy raises *)
  item : E → pynum;             (* the element as a Python number *)
}.

(** int64, for the ints of that range.  An int is stored as it is and
    OverflowError is raised for one out of range; a float goes through
    [int(x)] and loses its fractional part, a NaN or an infinity raises. *)
Definition int64_cast (x : pynum) : option Z :=
  z ← match x with
      | PyInt z => Some z
      | PyFloat x => int_of_float x
      end;
  if decide (- 2 ^ 63 ≤ z < 2 ^ 63)%Z then Some z else None.

#[global] Instance int64 : Dtype Z := {|
  cast := int64_cast;
  item := PyInt;
|}.

(** float64.  A float is stored as it is; an int is rounded to the nearest
    float, and OverflowError is raised for one beyond the largest float. *)
Definition float64_cast (x : pynum) : option float :=
  match x with
  | PyInt z =>
      let x := float_of_int z in
      if PrimFloat.is_infinity x then None else Some x
  | PyFloat x => Some x
  end.

#[global] Instance float64 : Dtype float := {|
  cast := float64_cast;
  item := PyFloat;
|}.

(** [x == y] on Python numbers: the exact values are compared, and a NaN
    equals nothing. *)
Definition py_eq (x y : pynum) : bool :=
  match x, y with
  | PyInt i, PyInt j => (i =? j)%Z
  | PyFloat x, PyFloat y => PrimFloat.eqb x y
  | PyInt i, PyFloat x | PyFloat x, PyInt i => float_int_eq i x
  end.

(** ** ObservationDict *)

Module ObservationDict.
Section observation_dict.
Context {A : Type} `{Number A} {E : Type} `{Dtype E}.

(** *** The heap

    A dict of the table maps a key to the object stored under it, by
    reference; a numpy array holds its numbers by value.  Objects are never
    freed: a location is an index into the list of all objects allocated so
    far, and allocation appends. *)
Local Abbreviation loc := nat.

Inductive object :=
  | Dict (entries : gmap Z loc)
  | Array (elements : list E).

Local Abbreviation heap := (list object).

(** What the variable [cell] can hold: a reference to a dict or an array,
    or a number read out of an array (numpy hands out a fresh scalar). *)
Inductive value :=
  | Ref (l : loc)
  | Scalar (x : E).

(** [numpy.full(n_actions, init_value)]: [n_actions] elements of the
    element type of [init_value], each equal to it. *)
Definition full (n_actions : nat) (init_value : E) : object :=
  Array (replicate n_actions init_value).

(** [elements[key]] on a numpy array: negative indices count from the end,
    anything else out of range raises IndexError. *)
Definition array_index (elements : list E) (key : Z) : result E :=
  let len := Z.of_nat (length elements) in
  let i := if decide (key < 0)%Z then (len + key)%Z else key in
  if decide (0 ≤ i < len)%Z then
    match elements !! Z.to_nat i with
    | Some x => Ok x
    | None => Raise IndexError
    end
  else Raise IndexError.

(** *** The table

    With a bucketer the observation is a vector of numbers, without one its
    elements are the keys themselves ("used as is"); the bucketer therefore
    fixes the type of the observations and indexes the record. *)
Definition observation (bucketer : option (MultiBucketer.t A)) : Type :=
  match bucketer with
  | Some _ => list A
  | None => list Z
  end.

Record t (bucketer : option (MultiBucketer.t A)) := Build {
  table : loc;
  init_value : E;
  n_actions : nat;
}.
Arguments table {bucketer} _.
Arguments init_value {bucketer} _.
Arguments n_actions {bucketer} _.

(** Lines 94-97: [self.table = {}] allocates the root dict. *)
Definition init (init_value : E) (n_actions : nat) (bucketer : option (MultiBucketer.t A))
    (h : heap) : t bucketer * heap :=
  (Build bucketer (length h) init_value n_actions, h ++ [Dict ∅]).

(** Lines 110-111. *)
Definition discretise {bucketer} (self : t bucketer)
  : observation bucketer → result (list Z) :=
  match bucketer with
  | Some multi => λ observation, MultiBucketer.get_bucketed multi observation
  | None => λ observation, Ok observation
  end.

(** Lines 113-118, one iteration per key; [len] is [len(observation)] and
    [i] the counter of [enumerate].  A missing key is a KeyError, handled by
    storing a new object under the key: the right-hand side is built first,
    then stored, then read back.  Indexing an array or a scalar is numpy's
    business and its IndexError is not caught. *)
Fixpoint for_key {bucketer} (self : t bucketer) (len i : nat) (keys : list Z)
    (cell : value) (h : heap) : result value * heap :=
  match keys with
  | [] => (Ok cell, h)
  | key :: keys' =>
      match cell with
      | Scalar _ => (Raise IndexError, h)
      | Ref l =>
          match h !! l with
          | None => (Raise InvalidReference, h)
          | Some (Array elements) =>
              match array_index elements key with
              | Ok x => for_key self len (S i) keys' (Scalar x) h
              | Raise e => (Raise e, h)
              end
          | Some (Dict entries) =>
              match entries !! key with
              | Some l' => for_key self len (S i) keys' (Ref l') h
              | None =>
                  let new :=
                    if decide (i ≠ len - 1) then Dict ∅
                    else full (n_actions self) (init_value self) in
                  let l' := length h in
                  for_key self len (S i) keys' (Ref l')
                    (<[l := Dict (<[key := l']> entries)]> (h ++ [new]))
              end
          end
      end
  end.

(** Lines 108-120. *)
Definition get {bucketer} (self : t bucketer) (obs : observation bucketer) (h : heap)
  : result value * heap :=
  match discretise self obs with
  | Ok keys => for_key self (length keys) 0 keys (Ref (table self)) h
  | Raise e => (Raise e, h)
  end.

(** *** What a caller does with the returned reference

    [v[a] = x] and [v[a]] on a leaf, for an index [a] that is in range.
    The assignment stores [x] converted to the element type of the leaf.
    [None]: the location holds no array, [a] is out of range, or numpy
    refuses the conversion; nothing is stored then. *)
Definition setitem (l : loc) (a : nat) (x : pynum) (h : heap) : option heap :=
  match h !! l with
  | Some (Array elements) =>
      if decide (a < length elements) then
        e ← cast x; Some (<[l := Array (<[a := e]> elements)]> h)
      else None
  | _ => None
  end.

Definition getitem (l : loc) (a : nat) (h : heap) : option E :=
  match h !! l with
  | Some (Array elements) => elements !! a
  | _ => None
  end.

(** *** Specification vocabulary *)

(** Following [keys] from [cell] through entries that exist. *)
Fixpoint resolve (h : heap) (keys : list Z) (l : loc) : option loc :=
  match keys with
  | [] => Some l
  | key :: keys' =>
      match h !! l with
      | Some (Dict entries) => l' ← entries !! key; resolve h keys' l'
      | _ => None
      end
  end.

(** The heap only grows: arrays stay, dicts gain entries. *)
Definition extends (h h' : heap) : Prop :=
  ∀ l, match h !! l with
       | Some (Dict entries) => ∃ entries', h' !! l = Some (Dict entries') ∧ entries ⊆ entries'
       | Some (Array elements) => h' !! l = Some (Array elements)
       | None => True
       end.

(** The objects form a forest: every stored reference is allocated, no
    object is stored under two keys or in two dicts, and nothing refers to
    the root.  Every array has [n_actions] elements. *)
Record tree_inv {bucketer} (self : t bucketer) (h : heap) : Prop := {
  root_allocated : table self < length h;
  refs_allocated : ∀ l entries key l',
    h !! l = Some (Dict entries) → entries !! key = Some l' → l' < length h;
  one_parent : ∀ l1 entries1 key1 l2 entries2 key2 l',
    h !! l1 = Some (Dict entries1) → entries1 !! key1 = Some l' →
    h !! l2 = Some (Dict entries2) → entries2 !! key2 = Some l' →
    l1 = l2 ∧ key1 = key2;
  root_no_parent : ∀ l entries key,
    h !! l = Some (Dict entries) → entries !! key ≠ Some (table self);
  leaf_length : ∀ l elements,
    h !! l = Some (Array elements) → length elements = n_actions self;
}.

(** A table of depth [k]: whatever a key sequence leads to from the root
    is a dict when the sequence is shorter than [k] and an array of
    [n_actions] elements when its length is [k]. *)
Definition uniform {bucketer} (self : t bucketer) (k : nat) (h : heap) : Prop :=
  ∀ keys l, resolve h keys (table self) = Some l →
    match h !! l with
    | Some (Dict _) => length keys < k
    | Some (Array elements) => length keys = k ∧ length elements = n_actions self
    | None => False
    end.

(** The heaps a table of dimension [k] goes through: it is created alone in
    an empty heap, then read with keys of [k] coordinates and written through
    the references it returned. *)
Inductive reachable {bucketer} (self : t bucketer) (k : nat) : heap → Prop :=
  | reachable_init h :
      init (init_value self) (n_actions self) bucketer [] = (self, h) →
      reachable self k h
  | reachable_get h obs keys out h' :
      reachable self k h →
      discretise self obs = Ok keys → length keys = k →
      get self obs h = (out, h') →
      reachable self k h'
  | reachable_setitem h l a x h' :
      reachable self k h →
      setitem l a x h = Some h' →
      reachable self k h'.

(** The heap a first [get] leaves behind when the table was alone and
    empty at location 0: dict [i] holds the one entry [key_i ↦ i+1], and the
    last location holds the leaf. *)
Fixpoint single_path (self_n_actions : nat) (self_init_value : E) (l : loc) (keys : list Z)
  : heap :=
  match keys with
  | [] => [full self_n_actions self_init_value]
  | key :: keys' =>
      Dict {[ key := S l ]} :: single_path self_n_actions self_init_value (S l) keys'
  end.
End observation_dict.
Arguments t {A E} bucketer.
Arguments value E : clear implicits.
Arguments object E : clear implicits.
Arguments table {A E bucketer} _.
Arguments init_value {A E bucketer} _.
Arguments n_actions {A E bucketer} _.
Abbreviation loc := nat (only parsing).
Abbreviation heap E := (list (object E)) (only parsing).
End ObservationDict.

(** ** Instances used in examples, and properties as the specification
    states them *)

(** [Bucketer(0, 10, 5)] *)
Definition decade_bucketer {A : Type} `{Number A} : Bucketer.t A :=
  Bucketer.Build (of_int 0) (of_int 10) 5.

(** [Bucketer(-5, 5, 5)] *)
Definition centred_bucketer {A : Type} `{Number A} : Bucketer.t A :=
  Bucketer.Build (of_int (-5)) (of_int 5) 5.

(** [Bucketer(0.0, 1.0, 49)] *)
Definition unit_bucketer {A : Type} `{Number A} : Bucketer.t A :=
  Bucketer.Build (of_int 0) (of_int 1) 49.

(** The two floats just below [1.0]: [1 - 2^-53] (Python prints
    [0.9999999999999999]) and [1 - 2^-52] ([0.9999999999999998]). *)
Definition below_one : float := 0x1.fffffffffffffp-1%float.
Definition below_below_one : float := 0x1.ffffffffffffep-1%float.

(** A value inside [lower_bound, upper_bound) gets a bucket in
    [0, n_buckets). *)
Definition in_range_law {A : Type} `{Number A} (self : Bucketer.t A) (value : A) : Prop :=
  num_lt (Bucketer.lower_bound self) (Bucketer.upper_bound self) = true →
  (0 < Bucketer.n_buckets self)%Z →
  num_le (Bucketer.lower_bound self) value = true →
  num_lt value (Bucketer.upper_bound self) = true →
  ∃ b, Bucketer.get_bucketed self value = Ok b ∧ (0 <= b < Bucketer.n_buckets self)%Z.

(** Of two values inside [lower_bound, upper_bound) the smaller one does not
    get the larger bucket. *)
Definition monotone_law {A : Type} `{Number A} (self : Bucketer.t A) (v1 v2 : A) : Prop :=
  num_lt (Bucketer.lower_bound self) (Bucketer.upper_bound self) = true →
  (0 < Bucketer.n_buckets self)%Z →
  num_le (Bucketer.lower_bound self) v1 = true →
  num_le v1 v2 = true →
  num_lt v2 (Bucketer.upper_bound self) = true →
  ∀ b1 b2, Bucketer.get_bucketed self v1 = Ok b1 → Bucketer.get_bucketed self v2 = Ok b2 →
           (b1 <= b2)%Z.

(** [MultiBucketer([0, -5], [10, 5], 5)] *)
Definition pair_bucketer {A : Type} `{Number A} : MultiBucketer.t A :=
  MultiBucketer.Build 2 5 [decade_bucketer; centred_bucketer].

(** [ObservationDict(0.0, 2)] and [ObservationDict(0.0, 2, bucketer)] with
    the bucketer above, each alone in an empty heap; the leaves are float64. *)
Definition plain_table : ObservationDict.t (A:=float) None * list (ObservationDict.object float) :=
  ObservationDict.init 0%float 2 None [].

Definition bucketed_table
  : ObservationDict.t (Some pair_bucketer) * list (ObservationDict.object float) :=
  ObservationDict.init 0%float 2 (Some pair_bucketer) [].

(** [ObservationDict(0, 2)]: the initial value is an int and the leaves are
    int64. *)
Definition int_table : ObservationDict.t (A:=float) None * list (ObservationDict.object Z) :=
  ObservationDict.init 0%Z 2 None [].

(** After [v = get(obs)] and [v[a] = x], a following [get(obs)] returns [v]
    and its element [a] equals [x]. *)
Definition write_reads_back {A : Type} `{Number A} {E : Type} `{Dtype E}
    {bucketer : option (MultiBucketer.t A)} (self : ObservationDict.t bucketer)
    (obs : ObservationDict.observation bucketer) (a : nat) (x : pynum)
    (h : ObservationDict.heap E) : Prop :=
  ∀ v h1 h2,
    ObservationDict.get self obs h = (Ok (ObservationDict.Ref v), h1) →
    ObservationDict.setitem v a x h1 = Some h2 →
    ObservationDict.get self obs h2 = (Ok (ObservationDict.Ref v), h2)
    ∧ ∃ e, ObservationDict.getitem v a h2 = Some e ∧ py_eq (item e) x = true.

(** A vector of the wrong length makes [MultiBucketer.get_bucketed] raise. *)
Definition mismatch_faults {A : Type} `{Number A}
    (self : MultiBucketer.t A) (values : list A) : Prop :=
  length values ≠ MultiBucketer.n self →
  ∃ e, MultiBucketer.get_bucketed self values = Raise e.

(** ... and makes [ObservationDict.get] raise. *)
Definition table_mismatch_faults {A : Type} `{Number A} {E : Type}
    {multi : MultiBucketer.t A}
    (self : ObservationDict.t (Some multi)) (values : list A)
    (h : ObservationDict.heap E) : Prop :=
  length values ≠ MultiBucketer.n multi →
  ∃ e, (ObservationDict.get self values h).1 = Raise e.

(** ** Further vocabulary *)

(** What lines 54-57 return once the loop has found no bucket. *)
Definition fallthrough {A : Type} `{Number A} (self : Bucketer.t A) : Z :=
  if int_eq (Bucketer.n_buckets self - 1)%Z (Bucketer.upper_bound self)
  then Bucketer.n_buckets self
  else (-1)%Z.

(** The number of keys of [keys] that a walk from [l] does not find: the
    first missing one and all that follow it. *)
Fixpoint missing {E : Type} (h : list (ObservationDict.object E)) (keys : list Z) (l : nat)
  : nat :=
  match keys with
  | [] => 0
  | key :: keys' =>
      match h !! l with
      | Some (ObservationDict.Dict entries) =>
          match entries !! key with
          | Some l' => missing h keys' l'
          | None => length keys
          end
      | _ => 0
      end
  end.

(** [Bucketer(5, 10, 5)], both bounds positive, and [Bucketer(0, 4, 5)],
    whose upper bound is [n_buckets - 1]. *)
Definition shifted_bucketer {A : Type} `{Number A} : Bucketer.t A :=
  Bucketer.Build (of_int 5) (of_int 10) 5.

Definition quirk_bucketer {A : Type} `{Number A} : Bucketer.t A :=
  Bucketer.Build (of_int 0) (of_int 4) 5.

(** The heap of [plain_table] after [get([1, 2])]. *)
Definition plain_heap_12 : list (ObservationDict.object float) :=
  (ObservationDict.get plain_table.1 [1; 2]%Z plain_table.2).2.

(** ** The checkpoint schedule of [main.py] *)

Module Main.
(** Line 45, [i_episode > 0 and i_episode % args.checkpoint_rate == 0]:
    [and] leaves its right operand alone when the left one is false, [%] is
    the floored remainder and raises on a zero divisor. *)
Definition checkpoint_due (i_episode checkpoint_rate : Z) : result bool :=
  if (0 <? i_episode)%Z then
    if (checkpoint_rate =? 0)%Z then Raise ZeroDivisionError
    else Ok (i_episode mod checkpoint_rate =? 0)%Z
  else Ok false.

(** Line 46, [i_episode // args.checkpoint_rate], the number put into the
    file name of the checkpoint; evaluated only when the checkpoint is due. *)
Definition checkpoint_number (i_episode checkpoint_rate : Z) : Z :=
  (i_episode / checkpoint_rate)%Z.
End Main.

(** ** The loop of [Bucketer.get_bucketed] *)

Section bucketer_loop.
Context {A : Type} `{Number A}.
Implicit Types (self : Bucketer.t A) (step value : A).

(** Running the loop over [start, start+1, ..., start+len-1]. *)
Lemma for_bucket_seq self step value len : ∀ start last,
  match Bucketer.for_bucket self step value (Z.of_nat <$> seq start len) last with
  | inl b =>
      (Z.of_nat start <= b < Z.of_nat (start + len))%Z
      ∧ Bucketer.in_bucket self step value b = true
      ∧ ∀ i, (Z.of_nat start <= i < b)%Z → Bucketer.in_bucket self step value i = false
  | inr x =>
      (∀ i, (Z.of_nat start <= i < Z.of_nat (start + len))%Z →
            Bucketer.in_bucket self step value i = false)
      ∧ x = match len with
            | O => last
            | S len' => Some (Z.of_nat (start + len'))
            end
  end.
Proof.
  induction len as [|len IH]; intros start last; simpl.
  - split; [intros i Hi; lia | done].
  - destruct (Bucketer.in_bucket self step value (Z.of_nat start)) eqn:Hin.
    + split; [lia|]. split; [done|]. intros i Hi; lia.
    + specialize (IH (S start) (Some (Z.of_nat start))).
      destruct (Bucketer.for_bucket _ _ _ _ _) as [b|x].
      * destruct IH as (Hb & Hm & Hfirst). split; [lia|]. split; [done|].
        intros i Hi. destruct (decide (i = Z.of_nat start)) as [->|Hne]; [done|].
        apply Hfirst. lia.
      * destruct IH as [Hnone ->]. split.
        -- intros i Hi. destruct (decide (i = Z.of_nat start)) as [->|Hne]; [done|].
           apply Hnone. lia.
        -- destruct len as [|len']; f_equal; lia.
Qed.

Lemma for_bucket_range self step value :
  (0 < Bucketer.n_buckets self)%Z →
  match Bucketer.for_bucket self step value (range (Bucketer.n_buckets self)) None with
  | inl b =>
      (0 <= b < Bucketer.n_buckets self)%Z
      ∧ Bucketer.in_bucket self step value b = true
      ∧ ∀ i, (0 <= i < b)%Z → Bucketer.in_bucket self step value i = false
  | inr x =>
      (∀ i, (0 <= i < Bucketer.n_buckets self)%Z →
            Bucketer.in_bucket self step value i = false)
      ∧ x = Some (Bucketer.n_buckets self - 1)%Z
  end.
Proof.
  intros Hn. unfold range.
  pose proof (for_bucket_seq self step value (Z.to_nat (Bucketer.n_buckets self)) 0 None) as Hloop.
  destruct (Bucketer.for_bucket _ _ _ _ _) as [b|x].
  - destruct Hloop as (Hb & Hm & Hfirst). split; [lia|]. split; [done|].
    intros i Hi. apply Hfirst. lia.
  - destruct Hloop as [Hnone Hx]. split.
    + intros i Hi. apply Hnone. lia.
    + rewrite Hx. destruct (Z.to_nat (Bucketer.n_buckets self)) as [|m] eqn:Hm; [lia|].
      f_equal. lia.
Qed.

(** C1.  With [n_buckets > 0] (whatever the order of the bounds),
    [get_bucketed] returns a result [r]; with
    [step = |lower_bound|/n_buckets + |upper_bound|/n_buckets], either [r] is
    the first [b] of [0 .. n_buckets - 1] with
    [lower_bound + b*step <= value < lower_bound + (b+1)*step], or no such
    [b] exists and [r] is [n_buckets] when the last counter value
    [n_buckets - 1] equals [upper_bound] and [-1] otherwise. *)
Theorem get_bucketed_first_match self value :
  (0 < Bucketer.n_buckets self)%Z →
  let n := Bucketer.n_buckets self in
  let step := num_add (num_div (num_abs (Bucketer.lower_bound self)) (of_int n))
                      (num_div (num_abs (Bucketer.upper_bound self)) (of_int n)) in
  let matches b :=
    num_le (num_add (Bucketer.lower_bound self) (num_mul (of_int b) step)) value = true
    ∧ num_lt value (num_add (Bucketer.lower_bound self) (num_mul (of_int (b + 1)) step)) = true in
  ∃ r, Bucketer.get_bucketed self value = Ok r
    ∧ (((0 <= r < n)%Z ∧ matches r ∧ ∀ i, (0 <= i < r)%Z → ¬ matches i)
       ∨ ((∀ i, (0 <= i < n)%Z → ¬ matches i)
          ∧ r = if int_eq (n - 1)%Z (Bucketer.upper_bound self) then n else (-1)%Z)).
Proof.
  intros Hn n step matches.
  assert (Hmatch : ∀ b, Bucketer.in_bucket self step value b = true ↔ matches b).
  { intros b. unfold Bucketer.in_bucket, matches. by rewrite andb_true_iff. }
  assert (Hnomatch : ∀ b, Bucketer.in_bucket self step value b = false → ¬ matches b).
  { intros b Hb Hm. apply Hmatch in Hm. congruence. }
  unfold Bucketer.get_bucketed, Bucketer.step_size.
  destruct (Z.eqb_spec (Bucketer.n_buckets self) 0) as [Hz|_]; [lia|].
  simpl. fold n step.
  pose proof (for_bucket_range self step value Hn) as Hloop. fold n in Hloop.
  destruct (Bucketer.for_bucket _ _ _ _ _) as [b|x].
  - destruct Hloop as (Hb & Hm & Hfirst). exists b. split; [done|]. left.
    split; [done|]. split; [by apply Hmatch|]. intros i Hi. by apply Hnomatch, Hfirst.
  - destruct Hloop as [Hnone ->].
    exists (if int_eq (n - 1)%Z (Bucketer.upper_bound self) then n else (-1)%Z).
    split; [by destruct (int_eq _ _)|]. right.
    split; [|done]. intros i Hi. by apply Hnomatch, Hnone.
Qed.
End bucketer_loop.

(** ** Bucketing without rounding *)

Section bucketer_exact.
Variable self : Bucketer.t Q.
Hypothesis bounds_ordered : (Bucketer.lower_bound self < Bucketer.upper_bound self)%Q.
Hypothesis buckets_positive : (0 < Bucketer.n_buckets self)%Z.

Local Abbreviation lower := (Bucketer.lower_bound self).
Local Abbreviation upper := (Bucketer.upper_bound self).
Local Abbreviation n := (Bucketer.n_buckets self).
Local Abbreviation step := (Bucketer.step_expr self).
Local Abbreviation edge := (Bucketer.edge self (Bucketer.step_expr self)).

Lemma Q_edge_unfold b : (edge b == lower + inject_Z b * step)%Q.
Proof. reflexivity. Qed.

Lemma Q_n_nonzero : ¬ (inject_Z n == 0)%Q.
Proof. unfold Qeq. simpl. lia. Qed.

Lemma Q_n_steps : (inject_Z n * step == Qabs lower + Qabs upper)%Q.
Proof.
  unfold Bucketer.step_expr. simpl. field. apply Q_n_nonzero.
Qed.

Lemma Q_step_pos : (0 < step)%Q.
Proof.
  assert (Hsum : (0 < Qabs lower + Qabs upper)%Q).
  { pose proof (Qle_Qabs upper) as Hu. pose proof (Qle_Qabs (- lower)) as Hl.
    rewrite Qabs_opp in Hl. lra. }
  rewrite <- Q_n_steps in Hsum.
  assert (Hn : (0 < inject_Z n)%Q) by (unfold Qlt; simpl; lia).
  destruct (Qlt_le_dec 0 step) as [|Hle]; [done|]. nra.
Qed.

Lemma Q_edge_first : (edge 0 == lower)%Q.
Proof. rewrite Q_edge_unfold. change (inject_Z 0) with 0%Q. lra. Qed.

(** The last edge is not below the upper bound: [|l| + |u| >= u - l]. *)
Lemma Q_edge_last : (upper <= edge n)%Q.
Proof.
  rewrite Q_edge_unfold, Q_n_steps.
  pose proof (Qle_Qabs upper) as Hu. pose proof (Qle_Qabs (- lower)) as Hl.
  rewrite Qabs_opp in Hl. lra.
Qed.

Lemma Q_edge_mono b b' : (b <= b')%Z → (edge b <= edge b')%Q.
Proof.
  intros Hb. rewrite !Q_edge_unfold. rewrite Zle_Qle in Hb.
  pose proof Q_step_pos. nra.
Qed.

Lemma Q_in_bucket b value :
  Bucketer.in_bucket self step value b = true ↔ (edge b <= value ∧ value < edge (b + 1))%Q.
Proof.
  unfold Bucketer.in_bucket. rewrite andb_true_iff. simpl.
  rewrite Qle_bool_iff, negb_true_iff. split; intros [H1 H2]; split; try done.
  - apply Qnot_le_lt. intros Hle. apply Qle_bool_iff in Hle. congruence.
  - apply not_true_is_false. intros Hle. apply Qle_bool_iff in Hle.
    by apply (Qlt_not_le _ _ H2).
Qed.

(** A value that no bucket below [m] takes lies at or above edge [m]. *)
Lemma Q_unmatched_above value m :
  (lower <= value)%Q → (0 <= m)%Z →
  (∀ i, (0 <= i < m)%Z → Bucketer.in_bucket self step value i = false) →
  (edge m <= value)%Q.
Proof.
  intros Hlow Hm. revert m Hm. apply (natlike_ind (λ m, _ → (edge m <= value)%Q)).
  - intros _. by rewrite Q_edge_first.
  - intros m Hm IH Hnone.
    assert (Hbelow : (edge m <= value)%Q) by (apply IH; intros i Hi; apply Hnone; lia).
    destruct (Qlt_le_dec value (edge (Z.succ m))) as [Hlt|]; [|done].
    assert (Bucketer.in_bucket self step value m = true) as Hin.
    { apply Q_in_bucket. by replace (m + 1)%Z with (Z.succ m) by lia. }
    rewrite Hnone in Hin by lia. done.
Qed.

Lemma Q_get_bucketed_inside value :
  (lower <= value)%Q → (value < upper)%Q →
  ∃ b, Bucketer.get_bucketed self value = Ok b
     ∧ (0 <= b < n)%Z ∧ (edge b <= value ∧ value < edge (b + 1))%Q.
Proof.
  intros Hlow Hup. unfold Bucketer.get_bucketed, Bucketer.step_size.
  destruct (Z.eqb_spec n 0) as [Hz|_]; [lia|]. simpl.
  pose proof (for_bucket_range self step value buckets_positive) as Hloop.
  destruct (Bucketer.for_bucket _ _ _ _ _) as [b|x].
  - destruct Hloop as (Hb & Hm & _). exists b. split; [done|]. split; [done|].
    by apply Q_in_bucket.
  - destruct Hloop as [Hnone _]. exfalso.
    assert (edge n <= value)%Q as Hn by (apply Q_unmatched_above; [done|lia|done]).
    pose proof Q_edge_last. lra.
Qed.
End bucketer_exact.

(** C4, for arithmetic without rounding.  For a bucketer over the rationals
    with [lower_bound < upper_bound] and [n_buckets > 0], and values
    [lower_bound <= v1 <= v2 < upper_bound]: both values get a bucket, the
    buckets lie in [0, n_buckets) and the bucket of [v1] is at most the bucket
    of [v2]. *)
Theorem get_bucketed_exact_range_monotone (self : Bucketer.t Q) (v1 v2 : Q) :
  (Bucketer.lower_bound self < Bucketer.upper_bound self)%Q →
  (0 < Bucketer.n_buckets self)%Z →
  (Bucketer.lower_bound self <= v1)%Q → (v1 <= v2)%Q → (v2 < Bucketer.upper_bound self)%Q →
  ∃ b1 b2, Bucketer.get_bucketed self v1 = Ok b1
         ∧ Bucketer.get_bucketed self v2 = Ok b2
         ∧ (0 <= b1)%Z ∧ (b1 <= b2)%Z ∧ (b2 < Bucketer.n_buckets self)%Z.
Proof.
  intros Hlu Hn H1 H12 H2.
  destruct (Q_get_bucketed_inside self Hn v1) as (b1 & Hb1 & Hr1 & He1 & _); [done|lra|].
  destruct (Q_get_bucketed_inside self Hn v2) as (b2 & Hb2 & Hr2 & _ & He2); [lra|done|].
  exists b1, b2. repeat split; try done; try lia.
  destruct (Z_le_gt_dec b1 b2) as [|Hgt]; [done|]. exfalso.
  pose proof (Q_edge_mono self Hlu Hn (b2 + 1) b1 ltac:(lia)). lra.
Qed.

(** ** The heap of [ObservationDict] *)

Import ObservationDict.

Section table_heap.
Context {A : Type} `{Number A} {E : Type} `{Dtype E}.
Implicit Types (h : heap E) (l : loc) (entries : gmap Z loc) (keys : list Z).

(** The heap after the KeyError branch stored [new] under [key] in the dict
    at [l]. *)
Lemma lookup_created h l entries key new j :
  h !! l = Some (Dict entries) →
  (<[l := Dict (<[key := length h]> entries)]> (h ++ [new])) !! j =
    if decide (j = l) then Some (Dict (<[key := length h]> entries))
    else if decide (j = length h) then Some new
    else h !! j.
Proof.
  intros Hl. apply lookup_lt_Some in Hl as Hlt.
  destruct (decide (j = l)) as [->|Hjl].
  - apply list_lookup_insert_eq. rewrite length_app. simpl. lia.
  - rewrite list_lookup_insert_ne by done.
    destruct (decide (j = length h)) as [->|Hjn].
    + rewrite lookup_app_r by lia. by rewrite Nat.sub_diag.
    + destruct (decide (j < length h)).
      * by rewrite lookup_app_l.
      * rewrite (lookup_ge_None_2 (h ++ [new])) by (rewrite length_app; simpl; lia).
        symmetry. apply lookup_ge_None_2. lia.
Qed.

Lemma extends_refl h : extends h h.
Proof. intros l. destruct (h !! l) as [[entries|elements]|]; eauto. Qed.

Lemma extends_trans h1 h2 h3 : extends h1 h2 → extends h2 h3 → extends h1 h3.
Proof.
  intros H12 H23 l. specialize (H12 l). specialize (H23 l).
  destruct (h1 !! l) as [[entries|elements]|]; [| |done].
  - destruct H12 as (entries2 & Hl2 & Hsub). rewrite Hl2 in H23.
    destruct H23 as (entries3 & Hl3 & Hsub'). exists entries3. split; [done|].
    by transitivity entries2.
  - by rewrite H12 in H23.
Qed.

Lemma extends_created h l entries key new :
  h !! l = Some (Dict entries) → entries !! key = None →
  extends h (<[l := Dict (<[key := length h]> entries)]> (h ++ [new])).
Proof.
  intros Hl Hkey j. destruct (h !! j) as [o|] eqn:Hj; [|done].
  apply lookup_lt_Some in Hj as Hlt.
  rewrite (lookup_created h l entries key new j Hl).
  destruct (decide (j = l)) as [->|Hjl].
  - rewrite Hl in Hj. injection Hj as <-. eexists. split; [done|].
    by apply insert_subseteq.
  - destruct (decide (j = length h)); [lia|]. rewrite Hj.
    destruct o; [|done]. eauto.
Qed.

Lemma resolve_extends h h' keys : ∀ l r,
  extends h h' → resolve h keys l = Some r → resolve h' keys l = Some r.
Proof.
  induction keys as [|key keys IH]; intros l r Hext; simpl; [done|].
  pose proof (Hext l) as Hl.
  destruct (h !! l) as [[entries|elements]|]; [|done..].
  destruct Hl as (entries' & -> & Hsub).
  destruct (entries !! key) as [l'|] eqn:Hkey; [|done]. simpl.
  rewrite (lookup_weaken _ _ _ _ Hkey Hsub). simpl. by apply IH.
Qed.

Lemma resolve_app h keys1 keys2 l :
  resolve h (keys1 ++ keys2) l = resolve h keys1 l ≫= resolve h keys2.
Proof.
  revert l. induction keys1 as [|key keys1 IH]; intros l; simpl; [done|].
  destruct (h !! l) as [[entries|elements]|]; [|done..].
  destruct (entries !! key) as [l'|]; simpl; [apply IH|done].
Qed.

Lemma resolve_snoc h keys key l r :
  resolve h (keys ++ [key]) l = Some r ↔
  ∃ l' entries, resolve h keys l = Some l' ∧ h !! l' = Some (Dict entries)
                ∧ entries !! key = Some r.
Proof.
  rewrite resolve_app. split.
  - destruct (resolve h keys l) as [l'|]; [|done]. simpl.
    destruct (h !! l') as [[entries|elements]|] eqn:Hl'; [|done..].
    destruct (entries !! key) as [r'|] eqn:Hkey; [|done]. simpl.
    intros [= <-]. eauto.
  - intros (l' & entries & -> & Hl' & Hkey). simpl. rewrite Hl'. by rewrite Hkey.
Qed.

Section with_table.
Context {bucketer : option (MultiBucketer.t A)} (self : t (E:=E) bucketer).

(** A scalar cannot be indexed further, and is never a reference. *)
Lemma for_key_scalar len i keys x h r h' :
  for_key self len i keys (Scalar x) h = (Ok r, h') → keys = [] ∧ r = Scalar x ∧ h' = h.
Proof. destruct keys; simpl; [|done]. by intros [= <- <-]. Qed.

(** Whatever the outcome, an exception included, the heap has only
    grown. *)

Lemma for_key_extends len keys : ∀ i cell h out h',
  for_key self len i keys cell h = (out, h') → extends h h'.
Proof.
  induction keys as [|key keys IH]; intros i cell h out h'; simpl.
  - intros [= _ <-]. apply extends_refl.
  - destruct cell as [l|x]; [|intros [= _ <-]; apply extends_refl].
    destruct (h !! l) as [[entries|elements]|] eqn:Hl;
      [| |intros [= _ <-]; apply extends_refl].
    + destruct (entries !! key) as [l'|] eqn:Hkey; [by apply IH|].
      intros Hrun. apply IH in Hrun.
      eapply extends_trans; [|exact Hrun]. by apply extends_created.
    + destruct (array_index elements key) as [x|];
        [by apply IH|intros [= _ <-]; apply extends_refl].
Qed.

(** Where a walk ends is where its keys lead in the heap it leaves. *)
Lemma for_key_resolve len keys : ∀ i l h r h',
  for_key self len i keys (Ref l) h = (Ok (Ref r), h') → resolve h' keys l = Some r.
Proof.
  induction keys as [|key keys IH]; intros i l h r h'; simpl.
  - by intros [= <- <-].
  - destruct (h !! l) as [[entries|elements]|] eqn:Hl; [| |done].
    + destruct (entries !! key) as [l'|] eqn:Hkey.
      * intros Hrun. pose proof (for_key_extends _ _ _ _ _ _ _ Hrun l) as Hext.
        rewrite Hl in Hext. destruct Hext as (entries' & -> & Hsub).
        rewrite (lookup_weaken _ _ _ _ Hkey Hsub). simpl. by eapply IH.
      * intros Hrun. pose proof (for_key_extends _ _ _ _ _ _ _ Hrun l) as Hext.
        rewrite (lookup_created h l entries key _ l Hl) in Hext.
        rewrite decide_True in Hext by done.
        destruct Hext as (entries' & -> & Hsub).
        rewrite (lookup_weaken (<[key:=length h]> entries) entries' key (length h));
          [|by apply lookup_insert_eq|done].
        simpl. by eapply IH.
    + destruct (array_index elements key) as [x|]; [|done].
      intros Hrun. by apply for_key_scalar in Hrun as (_ & ? & _).
Qed.

(** Keys that all exist are only read. *)
Lemma resolve_for_key len keys : ∀ i l h r,
  resolve h keys l = Some r → for_key self len i keys (Ref l) h = (Ok (Ref r), h).
Proof.
  induction keys as [|key keys IH]; intros i l h r; simpl.
  - by intros [= <-].
  - destruct (h !! l) as [[entries|elements]|]; [|done..].
    destruct (entries !! key) as [l'|]; [|done]. simpl. apply IH.
Qed.

(** *** The forest invariant *)

(** The entries of the heap after a creation are the old ones and the
    one just stored. *)
Lemma edge_created h l entries key new j entries' key' l' :
  h !! l = Some (Dict entries) →
  new = Dict ∅ ∨ new = full (n_actions self) (init_value self) →
  (<[l := Dict (<[key := length h]> entries)]> (h ++ [new])) !! j = Some (Dict entries') →
  entries' !! key' = Some l' →
  (j = l ∧ key' = key ∧ l' = length h)
  ∨ (∃ entries0, h !! j = Some (Dict entries0) ∧ entries0 !! key' = Some l').
Proof.
  intros Hl Hnew. rewrite (lookup_created h l entries key new j Hl).
  destruct (decide (j = l)) as [->|Hjl].
  - intros [= <-]. rewrite lookup_insert.
    destruct (decide (key = key')) as [->|Hne].
    + intros [= <-]. by left.
    + intros Hold. right. eauto.
  - destruct (decide (j = length h)) as [->|Hjn].
    + destruct Hnew as [-> | ->]; [|done]. intros [= <-]. by rewrite lookup_empty.
    + intros Hj Hkey. right. eauto.
Qed.

Lemma tree_inv_created h l entries key new :
  tree_inv self h →
  h !! l = Some (Dict entries) → entries !! key = None →
  new = Dict ∅ ∨ new = full (n_actions self) (init_value self) →
  tree_inv self (<[l := Dict (<[key := length h]> entries)]> (h ++ [new])).
Proof.
  intros [Hroot Hrefs Hone Hnoroot Hleaf] Hl Hkey Hnew.
  assert (Hlen : length (<[l := Dict (<[key := length h]> entries)]> (h ++ [new]))
                 = S (length h)).
  { rewrite length_insert, length_app. simpl. lia. }
  split.
  - rewrite Hlen. lia.
  - intros j entries' key' l' Hj Hk. rewrite Hlen.
    destruct (edge_created h l entries key new j entries' key' l' Hl Hnew Hj Hk)
      as [(_ & _ & ->) | (entries0 & Hj0 & Hk0)]; [lia|].
    specialize (Hrefs _ _ _ _ Hj0 Hk0). lia.
  - intros j1 entries1 key1 j2 entries2 key2 l' Hj1 Hk1 Hj2 Hk2.
    destruct (edge_created h l entries key new j1 entries1 key1 l' Hl Hnew Hj1 Hk1)
      as [(-> & -> & ->) | (e1 & Hj1' & Hk1')];
    destruct (edge_created h l entries key new j2 entries2 key2 _ Hl Hnew Hj2 Hk2)
      as [(-> & -> & Heq) | (e2 & Hj2' & Hk2')].
    + done.
    + specialize (Hrefs _ _ _ _ Hj2' Hk2'). lia.
    + specialize (Hrefs _ _ _ _ Hj1' Hk1'). lia.
    + eauto.
  - intros j entries' key' Hj Hk.
    destruct (edge_created h l entries key new j entries' key' _ Hl Hnew Hj Hk)
      as [(_ & _ & Heq) | (entries0 & Hj0 & Hk0)]; [lia|].
    by eapply Hnoroot.
  - intros j elements. rewrite (lookup_created h l entries key new j Hl).
    destruct (decide (j = l)); [done|].
    destruct (decide (j = length h)); [|by apply Hleaf].
    destruct Hnew as [-> | ->]; [done|]. intros [= <-]. apply length_replicate.
Qed.

Lemma for_key_tree_inv len keys : ∀ i cell h out h',
  tree_inv self h → for_key self len i keys cell h = (out, h') → tree_inv self h'.
Proof.
  induction keys as [|key keys IH]; intros i cell h out h' Hinv; simpl.
  - by intros [= _ <-].
  - destruct cell as [l|x]; [|by intros [= _ <-]].
    destruct (h !! l) as [[entries|elements]|] eqn:Hl; [| |by intros [= _ <-]].
    + destruct (entries !! key) as [l'|] eqn:Hkey; [by apply IH|].
      apply IH. apply tree_inv_created; [done..|].
      destruct (decide (i ≠ len - 1)); auto.
    + destruct (array_index elements key) as [x|]; [by apply IH|by intros [= _ <-]].
Qed.

(** In a forest a location is reached from the root by one key sequence
    only. *)
Lemma resolve_unique h keys1 : ∀ keys2 l,
  tree_inv self h →
  resolve h keys1 (table self) = Some l → resolve h keys2 (table self) = Some l →
  keys1 = keys2.
Proof.
  induction keys1 as [|key1 keys1 IH] using rev_ind; intros keys2 l Hinv H1 H2.
  - injection H1 as <-. destruct keys2 as [|key2 keys2 _] using rev_ind; [done|].
    apply resolve_snoc in H2 as (l2 & entries2 & _ & Hl2 & Hk2).
    by destruct (root_no_parent self h Hinv _ _ key2 Hl2).
  - apply resolve_snoc in H1 as (l1 & entries1 & Hp1 & Hl1 & Hk1).
    destruct keys2 as [|key2 keys2 _] using rev_ind.
    + injection H2 as <-. by destruct (root_no_parent self h Hinv _ _ key1 Hl1).
    + apply resolve_snoc in H2 as (l2 & entries2 & Hp2 & Hl2 & Hk2).
      destruct (one_parent self h Hinv _ _ _ _ _ _ _ Hl1 Hk1 Hl2 Hk2) as [-> ->].
      f_equal. by eapply IH.
Qed.

(** *** Tables of uniform depth *)

(** After a creation a key sequence leads where it led before, or it is
    the one sequence that ends with the new entry. *)
Lemma resolve_created h l entries key new start keys : ∀ r,
  h !! l = Some (Dict entries) →
  new = Dict ∅ ∨ new = full (n_actions self) (init_value self) →
  resolve (<[l := Dict (<[key := length h]> entries)]> (h ++ [new])) keys start = Some r →
  resolve h keys start = Some r
  ∨ (r = length h ∧ ∃ prefix, keys = prefix ++ [key] ∧ resolve h prefix start = Some l).
Proof.
  induction keys as [|key' keys IH] using rev_ind; intros r Hl Hnew Hr.
  - by left.
  - apply resolve_snoc in Hr as (l0 & entries0 & Hp & Hl0 & Hk0).
    destruct (IH l0 Hl Hnew Hp) as [Hold | (-> & _)].
    + destruct (edge_created h l entries key new l0 entries0 key' r Hl Hnew Hl0 Hk0)
        as [(-> & -> & ->) | (e0 & Hl0' & Hk0')].
      * right. eauto.
      * left. apply resolve_snoc. eauto.
    + exfalso. apply lookup_lt_Some in Hl as Hlt.
      rewrite (lookup_created h l entries key new _ Hl) in Hl0.
      rewrite decide_False, decide_True in Hl0 by lia.
      destruct Hnew as [-> | ->]; [|done]. injection Hl0 as <-.
      by rewrite lookup_empty in Hk0.
Qed.

Lemma uniform_created k h l entries key prefix :
  tree_inv self h → uniform self k h →
  resolve h prefix (table self) = Some l →
  h !! l = Some (Dict entries) → entries !! key = None →
  let new := if decide (length prefix ≠ k - 1) then Dict ∅
             else full (n_actions self) (init_value self) in
  uniform self k (<[l := Dict (<[key := length h]> entries)]> (h ++ [new])).
Proof.
  intros Hinv Huni Hprefix Hl Hkey new keys r Hr.
  assert (Hnew : new = Dict ∅ ∨ new = full (n_actions self) (init_value self)).
  { unfold new. destruct (decide _); auto. }
  pose proof (Huni _ _ Hprefix) as Hdepth. rewrite Hl in Hdepth.
  rewrite (lookup_created h l entries key new r Hl).
  destruct (resolve_created h l entries key new _ keys r Hl Hnew Hr)
    as [Hold | (-> & p & -> & Hp)].
  - specialize (Huni _ _ Hold).
    destruct (decide (r = l)) as [->|Hrl]; [by rewrite Hl in Huni|].
    destruct (decide (r = length h)) as [->|]; [|done].
    by rewrite lookup_ge_None_2 in Huni.
  - apply lookup_lt_Some in Hl as Hlt.
    rewrite decide_False, decide_True by lia.
    assert (p = prefix) as -> by (by eapply resolve_unique).
    rewrite length_app. simpl. unfold new, full.
    destruct (decide (length prefix ≠ k - 1)); [lia|].
    rewrite length_replicate. split; [lia|done].
Qed.

(** In a table of depth [k], walking [k] keys from the root always ends
    at a leaf, creating what is missing and keeping the depth. *)
Lemma for_key_table k keys : ∀ prefix l h,
  tree_inv self h → uniform self k h →
  resolve h prefix (table self) = Some l →
  length prefix + length keys = k →
  ∃ r h' elements,
    for_key self k (length prefix) keys (Ref l) h = (Ok (Ref r), h')
    ∧ tree_inv self h' ∧ uniform self k h'
    ∧ h' !! r = Some (Array elements) ∧ length elements = n_actions self.
Proof.
  induction keys as [|key keys IH]; intros prefix l h Hinv Huni Hprefix Hlen; simpl.
  - pose proof (Huni _ _ Hprefix) as Hdepth. simpl in Hlen.
    destruct (h !! l) as [[entries|elements]|] eqn:Hl; [lia| |done].
    exists l, h, elements. by destruct Hdepth.
  - pose proof (Huni _ _ Hprefix) as Hdepth. simpl in Hlen.
    destruct (h !! l) as [[entries|elements]|] eqn:Hl; [|lia|done].
    assert (Hsnoc : length (prefix ++ [key]) = S (length prefix)).
    { rewrite length_app. simpl. lia. }
    destruct (entries !! key) as [l'|] eqn:Hkey.
    + rewrite <- Hsnoc. apply IH; [done..| |lia].
      apply resolve_snoc. eauto.
    + rewrite <- Hsnoc. apply IH.
      * apply tree_inv_created; [done..|]. destruct (decide _); auto.
      * by apply uniform_created.
      * apply resolve_snoc. exists l, (<[key := length h]> entries).
        split; [|split].
        -- eapply resolve_extends; [|done]. by apply extends_created.
        -- rewrite (lookup_created h l entries key _ l Hl). by rewrite decide_True.
        -- apply lookup_insert_eq.
      * lia.
Qed.

(** *** Writing through a reference *)

(** A write that is carried out: the location holds an array, the index
    is in range and the value has a conversion, which is what is stored. *)
Lemma setitem_Some l a x h h' :
  setitem l a x h = Some h' ↔
  ∃ elements e, h !! l = Some (Array elements) ∧ a < length elements ∧ cast x = Some e
              ∧ h' = <[l := Array (<[a := e]> elements)]> h.
Proof.
  unfold setitem. split.
  - destruct (h !! l) as [[entries|elements]|] eqn:Hl; [done| |done].
    destruct (decide (a < length elements)); [|done].
    destruct (cast x) as [e|] eqn:Hcast; [|done]. simpl. intros [= <-].
    by exists elements, e.
  - intros (elements & e & -> & Ha & -> & ->). by rewrite decide_True.
Qed.

Lemma setitem_lookup l a x h h' j :
  setitem l a x h = Some h' →
  ∃ e, cast x = Some e
     ∧ h' !! j = match h !! j with
                 | Some (Array elements) =>
                     Some (Array (if decide (j = l) then <[a := e]> elements else elements))
                 | o => o
                 end.
Proof.
  intros (elements & e & Hl & Ha & Hcast & ->)%setitem_Some. exists e. split; [done|].
  destruct (decide (j = l)) as [->|Hjl].
  - rewrite Hl. apply list_lookup_insert_eq. by eapply lookup_lt_Some.
  - rewrite list_lookup_insert_ne by done.
    by destruct (h !! j) as [[e'|els]|].
Qed.

Lemma resolve_setitem l a x h h' keys : ∀ start,
  setitem l a x h = Some h' → resolve h' keys start = resolve h keys start.
Proof.
  induction keys as [|key keys IH]; intros start Hset; simpl; [done|].
  destruct (setitem_lookup l a x h h' start Hset) as (e & _ & ->).
  destruct (h !! start) as [[entries|elements]|]; [|done..].
  destruct (entries !! key) as [l'|]; simpl; [by apply IH|done].
Qed.

(** The element written reads back as the converted value. *)
Lemma getitem_setitem l a x h h' :
  setitem l a x h = Some h' → ∃ e, cast x = Some e ∧ getitem l a h' = Some e.
Proof.
  intros (elements & e & Hl & Ha & Hcast & ->)%setitem_Some. exists e. split; [done|].
  unfold getitem. rewrite list_lookup_insert_eq by (by eapply lookup_lt_Some).
  by apply list_lookup_insert_eq.
Qed.

Lemma setitem_tree_inv l a x h h' :
  setitem l a x h = Some h' → tree_inv self h → tree_inv self h'.
Proof.
  intros Hset [Hroot Hrefs Hone Hnoroot Hleaf].
  assert (Hlen : length h' = length h).
  { apply setitem_Some in Hset as (elements & e & _ & _ & _ & ->). apply length_insert. }
  assert (Hdict : ∀ j entries, h' !! j = Some (Dict entries) → h !! j = Some (Dict entries)).
  { intros j entries. destruct (setitem_lookup l a x h h' j Hset) as (e & _ & ->).
    by destruct (h !! j) as [[e'|els]|]. }
  split.
  - by rewrite Hlen.
  - intros j entries key l' Hj Hk. rewrite Hlen. eauto.
  - intros j1 e1 k1 j2 e2 k2 l' Hj1 Hk1 Hj2 Hk2. eauto.
  - intros j entries key Hj. eauto.
  - intros j elements. destruct (setitem_lookup l a x h h' j Hset) as (e & _ & ->).
    destruct (h !! j) as [[e'|els]|] eqn:Hj; [done| |done].
    intros [= <-]. destruct (decide (j = l)); [rewrite length_insert|]; eauto.
Qed.

Lemma setitem_uniform k l a x h h' :
  setitem l a x h = Some h' → uniform self k h → uniform self k h'.
Proof.
  intros Hset Huni keys r Hr. rewrite (resolve_setitem l a x h h' keys _ Hset) in Hr.
  specialize (Huni _ _ Hr). destruct (setitem_lookup l a x h h' r Hset) as (e & _ & ->).
  destruct (h !! r) as [[e'|els]|]; [done| |done].
  destruct (decide (r = l)); [rewrite length_insert|]; done.
Qed.

(** *** The first path of an empty table *)

Lemma for_key_single_path len keys : ∀ i (before : list (object E)),
  keys ≠ [] → i + length keys = len →
  for_key self len i keys (Ref (length before)) (before ++ [Dict ∅])
  = (Ok (Ref (length before + length keys)),
     before ++ single_path (n_actions self) (init_value self) (length before) keys).
Proof.
  induction keys as [|key keys IH]; intros i before Hne Hlen; [done|].
  pose proof (IH (S i) (before ++ [Dict {[key := S (length before)]}])) as IH'.
  replace (length (before ++ [Dict {[key := S (length before)]}]))
    with (S (length before)) in IH' by (rewrite length_app; simpl; lia).
  rewrite <- !app_assoc in IH'. clear IH. simpl.
  rewrite list_lookup_middle by done. rewrite lookup_empty.
  rewrite length_app. simpl. rewrite Nat.add_1_r.
  rewrite <- app_assoc. rewrite insert_app_r_alt by done.
  rewrite Nat.sub_diag. simpl. rewrite insert_empty.
  destruct keys as [|key' keys].
  - simpl in *. rewrite decide_False by lia. repeat f_equal. lia.
  - rewrite decide_True by (simpl in Hlen; lia).
    etrans; [apply IH'; [done|simpl in *; lia]|].
    do 3 f_equal. simpl. lia.
Qed.

(** *** What [get] does to a table *)

Lemma get_tree_inv obs h out h' :
  tree_inv self h → get self obs h = (out, h') → tree_inv self h'.
Proof.
  unfold get. intros Hinv.
  destruct (discretise self obs) as [keys|e]; [|by intros [= _ <-]].
  by apply for_key_tree_inv.
Qed.

Lemma get_extends obs h out h' : get self obs h = (out, h') → extends h h'.
Proof.
  unfold get. destruct (discretise self obs) as [keys|e].
  - apply for_key_extends.
  - intros [= _ <-]. apply extends_refl.
Qed.

Lemma get_resolve obs keys h l h' :
  discretise self obs = Ok keys → get self obs h = (Ok (Ref l), h') →
  resolve h' keys (table self) = Some l.
Proof. unfold get. intros ->. simpl. apply for_key_resolve. Qed.

Lemma get_table k obs keys h :
  tree_inv self h → uniform self k h →
  discretise self obs = Ok keys → length keys = k →
  ∃ l h' elements,
    get self obs h = (Ok (Ref l), h')
    ∧ tree_inv self h' ∧ uniform self k h'
    ∧ h' !! l = Some (Array elements) ∧ length elements = n_actions self.
Proof.
  intros Hinv Huni Hkeys Hlen. unfold get. rewrite Hkeys. simpl. rewrite Hlen.
  by apply (for_key_table k keys [] (table self) h).
Qed.

(** C5.  Whenever [get(obs)] returns a reference, an immediately
    following [get(obs)] returns the same reference (the same object) and
    leaves the heap as it was: nothing is inserted.  In a table of depth
    [k] and for a key of [k] coordinates, [get(obs)] does return a
    reference, and the object is a leaf vector of [n_actions] elements. *)
Theorem get_twice_same_object (obs : observation bucketer) (h : heap E) :
  (∀ l h1, get self obs h = (Ok (Ref l), h1) → get self obs h1 = (Ok (Ref l), h1))
  ∧ (∀ k keys,
       tree_inv self h → uniform self k h →
       discretise self obs = Ok keys → length keys = k →
       ∃ l h1 elements,
         get self obs h = (Ok (Ref l), h1)
         ∧ h1 !! l = Some (Array elements) ∧ length elements = n_actions self
         ∧ get self obs h1 = (Ok (Ref l), h1)).
Proof.
  assert (Hsame : ∀ l h1,
    get self obs h = (Ok (Ref l), h1) → get self obs h1 = (Ok (Ref l), h1)).
  { intros l h1. unfold get. destruct (discretise self obs) as [keys|e]; [|done].
    simpl. intros Hrun. apply resolve_for_key. by eapply for_key_resolve. }
  split; [done|]. intros k keys Hinv Huni Hkeys Hlen.
  destruct (get_table k obs keys h Hinv Huni Hkeys Hlen)
    as (l & h1 & elements & Hget & _ & _ & Hl & Hn).
  exists l, h1, elements. eauto.
Qed.

(** A write through the reference that [get] returned is seen by the next
    [get]: the same reference, and the element holds the converted value. *)
Lemma get_setitem_get (obs : observation bucketer) (h : heap E) (a : nat) (x : pynum)
    v h1 h2 :
  get self obs h = (Ok (Ref v), h1) → setitem v a x h1 = Some h2 →
  get self obs h2 = (Ok (Ref v), h2)
  ∧ ∃ e, cast x = Some e ∧ getitem v a h2 = Some e.
Proof.
  intros Hget Hset. split; [|by eapply getitem_setitem].
  unfold get in *. destruct (discretise self obs) as [keys|e]; [|done].
  apply resolve_for_key. rewrite (resolve_setitem _ _ _ _ _ _ _ Hset).
  by eapply for_key_resolve.
Qed.

(** In a table of depth [k] the reference is returned and the write is
    carried out. *)
Lemma get_setitem_table k (obs : observation bucketer) keys (h : heap E) (a : nat)
    (x : pynum) e :
  tree_inv self h → uniform self k h →
  discretise self obs = Ok keys → length keys = k →
  a < n_actions self → cast x = Some e →
  ∃ v h1 h2,
    get self obs h = (Ok (Ref v), h1)
    ∧ setitem v a x h1 = Some h2
    ∧ get self obs h2 = (Ok (Ref v), h2)
    ∧ getitem v a h2 = Some e.
Proof.
  intros Hinv Huni Hkeys Hlen Ha Hcast.
  destruct (get_table k obs keys h Hinv Huni Hkeys Hlen)
    as (v & h1 & elements & Hget & _ & _ & Hv & Hn).
  assert (Hset : setitem v a x h1 = Some (<[v := Array (<[a := e]> elements)]> h1)).
  { apply setitem_Some. exists elements, e. repeat split; [done|lia|done]. }
  exists v, h1, (<[v := Array (<[a := e]> elements)]> h1).
  split; [done|]. split; [done|].
  destruct (get_setitem_get obs h a x v h1 _ Hget Hset) as (Hagain & e' & Hcast' & Hitem).
  split; [done|]. congruence.
Qed.

(** C8.  In a forest, two observations whose keys differ: when [get(obs1)]
    and then [get(obs2)] return references, these are two different objects,
    and a write to either one leaves every element of the other as it is.  In
    a table of depth [k] and for keys of [k] coordinates each, both calls do
    return references, to leaf vectors of [n_actions] elements. *)
Theorem distinct_keys_distinct_leaves (obs1 obs2 : observation bucketer) keys1 keys2
    (h : heap E) :
  tree_inv self h →
  discretise self obs1 = Ok keys1 → discretise self obs2 = Ok keys2 →
  keys1 ≠ keys2 →
  (∀ v1 h1 v2 h2,
     get self obs1 h = (Ok (Ref v1), h1) → get self obs2 h1 = (Ok (Ref v2), h2) →
     v1 ≠ v2
     ∧ (∀ a x h3, setitem v1 a x h2 = Some h3 → ∀ a', getitem v2 a' h3 = getitem v2 a' h2)
     ∧ (∀ a x h3, setitem v2 a x h2 = Some h3 → ∀ a', getitem v1 a' h3 = getitem v1 a' h2))
  ∧ (∀ k, uniform self k h → length keys1 = k → length keys2 = k →
       ∃ v1 h1 v2 h2 elements1 elements2,
         get self obs1 h = (Ok (Ref v1), h1)
         ∧ get self obs2 h1 = (Ok (Ref v2), h2)
         ∧ h2 !! v1 = Some (Array elements1) ∧ h2 !! v2 = Some (Array elements2)
         ∧ length elements1 = n_actions self ∧ length elements2 = n_actions self).
Proof.
  intros Hinv Hkeys1 Hkeys2 Hne. split.
  - intros v1 h1 v2 h2 Hget1 Hget2.
    pose proof (get_extends _ _ _ _ Hget2) as Hext.
    pose proof (get_tree_inv _ _ _ _ Hinv Hget1) as Hinv1.
    pose proof (get_tree_inv _ _ _ _ Hinv1 Hget2) as Hinv2.
    assert (Hr1 : resolve h2 keys1 (table self) = Some v1).
    { eapply resolve_extends; [done|]. by eapply get_resolve. }
    assert (Hr2 : resolve h2 keys2 (table self) = Some v2) by (by eapply get_resolve).
    assert (Hdiff : v1 ≠ v2).
    { intros ->. apply Hne. by eapply resolve_unique. }
    assert (Hother : ∀ v v' a x h3, v ≠ v' → setitem v a x h2 = Some h3 →
                       ∀ a', getitem v' a' h3 = getitem v' a' h2).
    { intros v v' a x h3 Hvv Hset a'. unfold getitem.
      destruct (setitem_lookup _ _ _ _ _ v' Hset) as (e & _ & ->).
      destruct (h2 !! v') as [[e'|els]|]; [done| |done]. by rewrite decide_False. }
    split; [done|]. split.
    + intros a x h3 Hset. by apply (Hother v1 v2 a x h3).
    + intros a x h3 Hset. by apply (Hother v2 v1 a x h3).
  - intros k Huni Hlen1 Hlen2.
    destruct (get_table k obs1 keys1 h Hinv Huni Hkeys1 Hlen1)
      as (v1 & h1 & elements1 & Hget1 & Hinv1 & Huni1 & Hv1 & Hn1).
    destruct (get_table k obs2 keys2 h1 Hinv1 Huni1 Hkeys2 Hlen2)
      as (v2 & h2 & elements2 & Hget2 & Hinv2 & Huni2 & Hv2 & Hn2).
    pose proof (get_extends _ _ _ _ Hget2 v1) as Hext. rewrite Hv1 in Hext.
    exists v1, h1, v2, h2, elements1, elements2. done.
Qed.
End with_table.

(** *** A new table *)

Lemma lookup_new_table l (o : object E) :
  [Dict ∅] !! l = Some o → l = 0 ∧ o = Dict (E:=E) ∅.
Proof. destruct l as [|l]; simpl; [by intros [= <-]|by destruct l]. Qed.

Lemma init_tree_inv (init_value : E) n_actions (bucketer : option (MultiBucketer.t A)) :
  tree_inv (init init_value n_actions bucketer []).1 (init init_value n_actions bucketer []).2.
Proof.
  simpl. split; simpl.
  - lia.
  - intros l entries key l' Hl%lookup_new_table. destruct Hl as [_ [= ->]].
    by rewrite lookup_empty.
  - intros l1 e1 k1 l2 e2 k2 l' Hl%lookup_new_table. destruct Hl as [_ [= ->]].
    by rewrite lookup_empty.
  - intros l entries key Hl%lookup_new_table. destruct Hl as [_ [= ->]].
    by rewrite lookup_empty.
  - intros l elements Hl%lookup_new_table. by destruct Hl.
Qed.

Lemma init_uniform (init_value : E) n_actions (bucketer : option (MultiBucketer.t A)) k :
  1 ≤ k →
  uniform (init init_value n_actions bucketer []).1 k (init init_value n_actions bucketer []).2.
Proof.
  intros Hk keys l. simpl. destruct keys as [|key keys]; simpl.
  - intros [= <-]. simpl. lia.
  - by rewrite lookup_empty.
Qed.

(** Every heap a table of dimension [k >= 1] goes through is a forest of
    depth [k]. *)
Lemma reachable_table_inv {bucketer} (self : t bucketer) k (h : heap E) :
  1 ≤ k → reachable self k h → tree_inv self h ∧ uniform self k h.
Proof.
  intros Hk. induction 1 as [h Hinit|h obs keys out h' _ [Hinv Huni] Hkeys Hlen Hget
                            |h l a x h' _ [Hinv Huni] Hset].
  - pose proof (init_tree_inv (init_value self) (n_actions self) bucketer) as Hinv.
    pose proof (init_uniform (init_value self) (n_actions self) bucketer k Hk) as Huni.
    by rewrite Hinit in Hinv, Huni.
  - destruct (get_table self k obs keys h Hinv Huni Hkeys Hlen)
      as (l & h1 & elements & Hget' & Hinv' & Huni' & _).
    rewrite Hget in Hget'. by injection Hget' as _ <-.
  - split; [by eapply setitem_tree_inv|by eapply setitem_uniform].
Qed.

(** C6.  A new table is one empty dict.  On it, a first [get] whose key has
    [k >= 1] coordinates leaves exactly the chain of [k] dicts with one
    entry each, ending in a vector of [n_actions] copies of [init_value],
    and returns that vector.  Every [get], whatever its outcome, keeps the
    heap a forest whose arrays all have [n_actions] elements and keeps every
    key sequence leading where it led, its array an array; in a table of
    depth [k] a [get] with a key of [k] coordinates returns the leaf that the
    key leads to and keeps the depth. *)
Theorem lazy_creation_and_shape (init_value : E) n_actions
    (bucketer : option (MultiBucketer.t A)) :
  let self := (init init_value n_actions bucketer []).1 in
  let h0 := (init init_value n_actions bucketer []).2 in
  h0 = [Dict ∅] ∧ h0 !! table self = Some (Dict ∅)
  ∧ tree_inv self h0 ∧ (∀ k, 1 ≤ k → uniform self k h0)
  ∧ (∀ obs keys,
       discretise self obs = Ok keys → keys ≠ [] →
       get self obs h0
       = (Ok (Ref (length keys)), single_path n_actions init_value 0 keys))
  ∧ (∀ h obs out h',
       tree_inv self h → get self obs h = (out, h') →
       tree_inv self h'
       ∧ ∀ keys l, resolve h keys (table self) = Some l →
           resolve h' keys (table self) = Some l
           ∧ ∀ elements, h !! l = Some (Array elements) → h' !! l = Some (Array elements))
  ∧ (∀ k h obs keys,
       tree_inv self h → uniform self k h →
       discretise self obs = Ok keys → length keys = k →
       ∃ l h' elements,
         get self obs h = (Ok (Ref l), h')
         ∧ tree_inv self h' ∧ uniform self k h'
         ∧ resolve h' keys (table self) = Some l
         ∧ h' !! l = Some (Array elements) ∧ length elements = n_actions).
Proof.
  intros self h0. split; [done|]. split; [done|].
  split; [apply init_tree_inv|]. split; [apply init_uniform|]. split; [|split].
  - intros obs keys Hkeys Hne. unfold get. rewrite Hkeys. simpl.
    by apply (for_key_single_path self (length keys) keys 0 []).
  - intros h obs out h' Hinv Hget. split; [by eapply get_tree_inv|].
    intros keys l Hr. pose proof (get_extends _ _ _ _ _ Hget) as Hext.
    split; [by eapply resolve_extends|].
    intros elements Hl. specialize (Hext l). by rewrite Hl in Hext.
  - intros k h obs keys Hinv Huni Hkeys Hlen.
    destruct (get_table self k obs keys h Hinv Huni Hkeys Hlen)
      as (l & h' & elements & Hget & Hinv' & Huni' & Hl & Hn).
    exists l, h', elements. repeat (split; [done|]). split; [|done].
    by eapply get_resolve.
Qed.

(** C10.  Without a bucketer, [get] of an observation of length zero does
    not raise: it returns the reference held in [self.table], the root
    dict, and the heap is as before. *)
Theorem get_empty_observation_returns_root (self : t None) (h : heap E) :
  get self [] h = (Ok (Ref (table self)), h)
  ∧ (∀ k, 1 ≤ k → uniform self k h → ∃ entries, h !! table self = Some (Dict entries))
  ∧ ∀ (init_value : E) n_actions,
      let new := init init_value n_actions None [] in
      get new.1 [] new.2 = (Ok (Ref (table new.1)), new.2)
      ∧ new.2 !! table new.1 = Some (Dict ∅).
Proof.
  split; [done|]. split; [|done]. intros k Hk Huni.
  specialize (Huni [] (table self) eq_refl).
  destruct (h !! table self) as [[entries|elements]|]; [by eexists| |done].
  simpl in Huni. lia.
Qed.
End table_heap.

(** C7, amended.  Whenever [get(obs)] returns a reference [v] and the
    write [v[a] = x] is carried out, a following [get(obs)] returns the same
    reference, and its element [a] is [x] converted to the element type of
    the leaf; nothing but the write was needed.  In a table of depth [k], for
    a key of [k] coordinates, [a < n_actions] and an [x] that has a
    conversion, [get] does return a reference and the write is carried out.
    Where the leaves are float64 and [x] is a float, and where they are int64
    and [x] is an int of that range, the element is [x] itself. *)
Theorem write_through_reference_persists :
  (∀ (A : Type) (HA : Number A) (E : Type) (HE : Dtype E)
     (bucketer : option (MultiBucketer.t A)) (self : t (E:=E) bucketer)
     (obs : observation bucketer) (h : heap E) (a : nat) (x : pynum),
     (∀ v h1 h2,
        get self obs h = (Ok (Ref v), h1) → setitem v a x h1 = Some h2 →
        get self obs h2 = (Ok (Ref v), h2)
        ∧ ∃ e, cast x = Some e ∧ getitem v a h2 = Some e)
     ∧ (∀ k keys e,
          tree_inv self h → uniform self k h →
          discretise self obs = Ok keys → length keys = k →
          a < n_actions self → cast x = Some e →
          ∃ v h1 h2,
            get self obs h = (Ok (Ref v), h1)
            ∧ setitem v a x h1 = Some h2
            ∧ get self obs h2 = (Ok (Ref v), h2)
            ∧ getitem v a h2 = Some e))
  ∧ (∀ (A : Type) (HA : Number A) (bucketer : option (MultiBucketer.t A))
       (self : t (E:=float) bucketer) (obs : observation bucketer) (h : heap float)
       (a : nat) (x : float) v h1 h2,
       get self obs h = (Ok (Ref v), h1) → setitem v a (PyFloat x) h1 = Some h2 →
       get self obs h2 = (Ok (Ref v), h2) ∧ getitem v a h2 = Some x)
  ∧ (∀ (A : Type) (HA : Number A) (bucketer : option (MultiBucketer.t A))
       (self : t (E:=Z) bucketer) (obs : observation bucketer) (h : heap Z)
       (a : nat) (z : Z) v h1 h2,
       get self obs h = (Ok (Ref v), h1) → setitem v a (PyInt z) h1 = Some h2 →
       get self obs h2 = (Ok (Ref v), h2) ∧ getitem v a h2 = Some z).
Proof.
  split; [|split].
  - intros A HA E HE bucketer self obs h a x. split.
    + intros v h1 h2. apply get_setitem_get.
    + intros k keys e. apply get_setitem_table.
  - intros A HA bucketer self obs h a x v h1 h2 Hget Hset.
    destruct (get_setitem_get self obs h a (PyFloat x) v h1 h2 Hget Hset)
      as (Hagain & e & Hcast & Hitem).
    split; [done|]. injection Hcast as <-. done.
  - intros A HA bucketer self obs h a z v h1 h2 Hget Hset.
    destruct (get_setitem_get self obs h a (PyInt z) v h1 h2 Hget Hset)
      as (Hagain & e & Hcast & Hitem).
    split; [done|]. simpl in Hcast. unfold int64_cast in Hcast. simpl in Hcast.
    destruct (decide _); [|done]. injection Hcast as <-. done.
Qed.

(** ** MultiBucketer: one bucketer per coordinate *)

Section multibucketer_facts.
Context {A : Type} `{Number A}.
Implicit Types (bucketers : list (Bucketer.t A)) (values : list A).

Lemma get_bucketed_succeeds (self : Bucketer.t A) value :
  (0 < Bucketer.n_buckets self)%Z → succeeds (Bucketer.get_bucketed self value).
Proof.
  intros Hn. unfold Bucketer.get_bucketed, Bucketer.step_size.
  destruct (Z.eqb_spec (Bucketer.n_buckets self) 0) as [Hz|_]; [lia|]. simpl.
  pose proof (for_bucket_range self (Bucketer.step_expr self) value Hn) as Hloop.
  destruct (Bucketer.for_bucket _ _ _ _ _) as [b|x]; [by eexists|].
  destruct Hloop as [_ ->]. destruct (int_eq _ _); by eexists.
Qed.

Lemma make_bucketers_length (lowers uppers : list A) n_buckets :
  length lowers = length uppers →
  length (MultiBucketer.make_bucketers lowers uppers n_buckets) = length lowers.
Proof.
  revert uppers. induction lowers as [|lower lowers IH]; intros [|upper uppers];
    simpl; try done. intros [= Hlen]. by rewrite IH.
Qed.

Lemma make_bucketers_lookup (lowers uppers : list A) n_buckets i bucketer :
  MultiBucketer.make_bucketers lowers uppers n_buckets !! i = Some bucketer ↔
  ∃ lower upper, lowers !! i = Some lower ∧ uppers !! i = Some upper
                 ∧ bucketer = Bucketer.Build lower upper n_buckets.
Proof.
  revert uppers i. induction lowers as [|lower lowers IH]; intros [|upper uppers] i; simpl.
  - split; [done|]. by intros (? & ? & ? & _).
  - split; [done|]. by intros (? & ? & ? & _).
  - split; [done|]. by intros (? & ? & _ & ? & _).
  - destruct i as [|i]; simpl; [|apply IH]. split.
    + intros [= <-]. eauto.
    + by intros (? & ? & [= <-] & [= <-] & ->).
Qed.

Lemma bucket_all_length bucketers : ∀ values out,
  MultiBucketer.bucket_all bucketers values = Ok out →
  length out = length bucketers `min` length values.
Proof.
  induction bucketers as [|bucketer bucketers IH]; intros [|value values] out; simpl;
    try by intros [= <-].
  destruct (Bucketer.get_bucketed bucketer value) as [b|e]; [|done]. simpl.
  destruct (MultiBucketer.bucket_all bucketers values) as [bs|e] eqn:Hrest; [|done].
  simpl. intros [= <-]. simpl. by rewrite (IH values bs).
Qed.

Lemma bucket_all_lookup bucketers : ∀ values out i bucketer value,
  MultiBucketer.bucket_all bucketers values = Ok out →
  bucketers !! i = Some bucketer → values !! i = Some value →
  ∃ b, out !! i = Some b ∧ Bucketer.get_bucketed bucketer value = Ok b.
Proof.
  induction bucketers as [|bucketer0 bucketers IH];
    intros [|value0 values] out i bucketer value; simpl; try done.
  destruct (Bucketer.get_bucketed bucketer0 value0) as [b0|e] eqn:Hfirst; [|done]. simpl.
  destruct (MultiBucketer.bucket_all bucketers values) as [bs|e] eqn:Hrest; [|done].
  simpl. intros [= <-]. destruct i as [|i]; simpl.
  - intros [= <-] [= <-]. eauto.
  - by apply IH.
Qed.

Lemma bucket_all_succeeds bucketers : ∀ values,
  (∀ bucketer, bucketer ∈ bucketers → (0 < Bucketer.n_buckets bucketer)%Z) →
  succeeds (MultiBucketer.bucket_all bucketers values).
Proof.
  induction bucketers as [|bucketer bucketers IH]; intros [|value values] Hpos; simpl;
    try by eexists.
  destruct (get_bucketed_succeeds bucketer value) as [b ->]; [apply Hpos; left|].
  destruct (IH values) as [bs ->]; [intros b' Hb'; apply Hpos; by right|].
  by eexists.
Qed.

(** [zip] never looks at values beyond the last bucketer. *)
Lemma bucket_all_take bucketers : ∀ values,
  MultiBucketer.bucket_all bucketers values
  = MultiBucketer.bucket_all bucketers (take (length bucketers) values).
Proof.
  induction bucketers as [|bucketer bucketers IH]; intros [|value values]; simpl; try done.
  by rewrite <- IH.
Qed.

Lemma init_bucketers lowers uppers n_buckets (self : MultiBucketer.t A) :
  MultiBucketer.init lowers uppers n_buckets = Ok self →
  length lowers = length uppers
  ∧ MultiBucketer.n self = length (MultiBucketer.bucketers self)
  ∧ MultiBucketer.n self = length lowers
  ∧ MultiBucketer.bucketers self = MultiBucketer.make_bucketers lowers uppers n_buckets.
Proof.
  unfold MultiBucketer.init. destruct (decide _) as [Hlen|]; [|done].
  intros [= <-]. simpl. by rewrite make_bucketers_length.
Qed.

Lemma get_bucketed_pointwise lowers uppers n_buckets (self : MultiBucketer.t A) values :
  MultiBucketer.init lowers uppers n_buckets = Ok self →
  (0 < n_buckets)%Z →
  length values = MultiBucketer.n self →
  ∃ out, MultiBucketer.get_bucketed self values = Ok out
    ∧ length out = MultiBucketer.n self
    ∧ ∀ i lower upper value,
        lowers !! i = Some lower → uppers !! i = Some upper → values !! i = Some value →
        ∃ b, out !! i = Some b
           ∧ Bucketer.get_bucketed (Bucketer.Build lower upper n_buckets) value = Ok b.
Proof.
  intros (Hlen & Hn & Hn' & Hbs)%init_bucketers Hpos Hvalues.
  unfold MultiBucketer.get_bucketed.
  destruct (bucket_all_succeeds (MultiBucketer.bucketers self) values) as [out Hout].
  { intros bucketer (i & Hi)%list_elem_of_lookup. rewrite Hbs in Hi.
    apply make_bucketers_lookup in Hi as (lower & upper & _ & _ & ->). done. }
  exists out. split; [done|]. split.
  - rewrite (bucket_all_length _ _ _ Hout). lia.
  - intros i lower upper value Hlower Hupper Hvalue.
    eapply bucket_all_lookup; [done| |done].
    rewrite Hbs. apply make_bucketers_lookup. eauto.
Qed.

(** C3, as the code has it.  A multi-bucketer pairs bucketers and values
    by position and stops at the shorter of the two: the values beyond its
    length [n] are not looked at, the result has [min n (len values)]
    buckets, and with [n_buckets > 0] there is a result for a vector of any
    length.  A table with that bucketer treats an observation as its first
    [n] values. *)
Theorem multi_get_bucketed_truncates lowers uppers n_buckets
    (self : MultiBucketer.t A) values :
  MultiBucketer.init lowers uppers n_buckets = Ok self →
  MultiBucketer.get_bucketed self values
    = MultiBucketer.get_bucketed self (take (MultiBucketer.n self) values)
  ∧ (∀ out, MultiBucketer.get_bucketed self values = Ok out →
            length out = MultiBucketer.n self `min` length values)
  ∧ ((0 < n_buckets)%Z → succeeds (MultiBucketer.get_bucketed self values))
  ∧ ∀ (E : Type) (table : ObservationDict.t (E:=E) (Some self)) h,
      ObservationDict.get table values h
      = ObservationDict.get table (take (MultiBucketer.n self) values) h.
Proof.
  intros (Hlen & Hn & Hn' & Hbs)%init_bucketers.
  assert (Htake : MultiBucketer.get_bucketed self values
    = MultiBucketer.get_bucketed self (take (MultiBucketer.n self) values)).
  { unfold MultiBucketer.get_bucketed. rewrite Hn. apply bucket_all_take. }
  split; [done|]. split; [|split].
  - intros out Hout. rewrite Hn. by apply bucket_all_length.
  - intros Hpos. apply bucket_all_succeeds.
    intros bucketer (i & Hi)%list_elem_of_lookup. rewrite Hbs in Hi.
    apply make_bucketers_lookup in Hi as (lower & upper & _ & _ & ->). done.
  - intros table h. unfold ObservationDict.get. simpl. by rewrite <- Htake.
Qed.
End multibucketer_facts.

(** ** The examples of the specification *)

(** C2.  [Bucketer(0, 10, 5)] puts 0 and 1.999 in bucket 0, 2.0 in bucket 1
    and 9.999 in bucket 4: in binary64 arithmetic, and in exact arithmetic. *)
Theorem decade_bucketer_boundaries :
  (Bucketer.get_bucketed (A:=float) decade_bucketer 0%float = Ok 0%Z
   ∧ Bucketer.get_bucketed (A:=float) decade_bucketer 1.999%float = Ok 0%Z
   ∧ Bucketer.get_bucketed (A:=float) decade_bucketer 2.0%float = Ok 1%Z
   ∧ Bucketer.get_bucketed (A:=float) decade_bucketer 9.999%float = Ok 4%Z)
  ∧ (Bucketer.get_bucketed (A:=Q) decade_bucketer 0%Q = Ok 0%Z
     ∧ Bucketer.get_bucketed (A:=Q) decade_bucketer (1999 # 1000)%Q = Ok 0%Z
     ∧ Bucketer.get_bucketed (A:=Q) decade_bucketer 2%Q = Ok 1%Z
     ∧ Bucketer.get_bucketed (A:=Q) decade_bucketer (9999 # 1000)%Q = Ok 4%Z)
  ∧ Bucketer.step_size (A:=float) decade_bucketer = Ok 2%float.
Proof. repeat split; vm_compute; reflexivity. Qed.

(** C9.  A multi-bucketer built from bounds of equal length with
    [n_buckets > 0], applied to a vector of its length [n], returns [n]
    buckets; the bucket at position [i] is the one the bucketer of the [i]-th
    bounds gives the [i]-th value.  [MultiBucketer([0, -5], [10, 5], 5)] maps
    [[2.0, 0.0]] to [[1, b]], with [b] the bucket of 0.0 in [Bucketer(-5, 5, 5)],
    which is 2. *)
Theorem multi_get_bucketed_pointwise :
  (∀ (A : Type) (HA : Number A) lowers uppers n_buckets (self : MultiBucketer.t A) values,
     MultiBucketer.init lowers uppers n_buckets = Ok self →
     (0 < n_buckets)%Z →
     length values = MultiBucketer.n self →
     ∃ out, MultiBucketer.get_bucketed self values = Ok out
       ∧ length out = MultiBucketer.n self
       ∧ ∀ i lower upper value,
           lowers !! i = Some lower → uppers !! i = Some upper → values !! i = Some value →
           ∃ b, out !! i = Some b
              ∧ Bucketer.get_bucketed (Bucketer.Build lower upper n_buckets) value = Ok b)
  ∧ MultiBucketer.init [0; -5]%float [10; 5]%float 5 = Ok pair_bucketer
  ∧ (∃ b, Bucketer.get_bucketed (A:=float) centred_bucketer 0%float = Ok b
        ∧ MultiBucketer.get_bucketed (A:=float) pair_bucketer [2; 0]%float = Ok [1%Z; b]
        ∧ b = 2%Z)
  ∧ (∃ b, Bucketer.get_bucketed (A:=Q) centred_bucketer 0%Q = Ok b
        ∧ MultiBucketer.get_bucketed (A:=Q) pair_bucketer [2; 0]%Q = Ok [1%Z; b]).
Proof.
  split; [intros A HA; apply get_bucketed_pointwise|].
  split; [reflexivity|]. split; exists 2%Z; repeat split; vm_compute; reflexivity.
Qed.

(** C4 does not survive rounding.  [Bucketer(0.0, 1.0, 49)]: the step is
    [1/49] rounded, and 49 steps end at [1 - 2^-53], below the upper bound;
    that float lies inside [0, 1) and no bucket takes it, so the result is
    [-1], while the float before it gets bucket 48. *)
Lemma float_rounding_leaves_gap :
  Bucketer.get_bucketed (A:=float) unit_bucketer below_one = Ok (-1)%Z
  ∧ Bucketer.get_bucketed (A:=float) unit_bucketer below_below_one = Ok 48%Z
  ∧ ¬ in_range_law (A:=float) unit_bucketer below_one
  ∧ ¬ monotone_law (A:=float) unit_bucketer below_below_one below_one.
Proof.
  assert (Hgap : Bucketer.get_bucketed (A:=float) unit_bucketer below_one = Ok (-1)%Z)
    by (vm_compute; reflexivity).
  assert (Hlast : Bucketer.get_bucketed (A:=float) unit_bucketer below_below_one = Ok 48%Z)
    by (vm_compute; reflexivity).
  split; [done|]. split; [done|]. split.
  - intros Hlaw. destruct Hlaw as (b & Hb & Hrange); try (vm_compute; reflexivity).
    rewrite Hgap in Hb. injection Hb as <-. lia.
  - intros Hlaw. specialize (Hlaw eq_refl eq_refl eq_refl eq_refl eq_refl _ _ Hlast Hgap).
    lia.
Qed.

(** C3 fails on the code: vectors of length 3 and 1 given to a multi-bucketer
    of length 2 are bucketed without complaint, and a table with that
    bucketer returns a leaf for the long one. *)
Lemma mismatch_is_silent :
  MultiBucketer.n (A:=float) pair_bucketer = 2
  ∧ MultiBucketer.get_bucketed (A:=float) pair_bucketer [2; 0; 7]%float = Ok [1; 2]%Z
  ∧ MultiBucketer.get_bucketed (A:=float) pair_bucketer [2]%float = Ok [1]%Z
  ∧ ¬ mismatch_faults (A:=float) pair_bucketer [2; 0; 7]%float
  ∧ ¬ mismatch_faults (A:=float) pair_bucketer [2]%float
  ∧ ¬ table_mismatch_faults bucketed_table.1 [2; 0; 7]%float bucketed_table.2.
Proof.
  split; [done|]. split; [vm_compute; reflexivity|]. split; [vm_compute; reflexivity|].
  split; [|split].
  - intros Hfault. destruct Hfault as [e He]; [simpl; lia|]. vm_compute in He. done.
  - intros Hfault. destruct Hfault as [e He]; [simpl; lia|]. vm_compute in He. done.
  - intros Hfault. destruct Hfault as [e He]; [simpl; lia|]. vm_compute in He. done.
Qed.

(** ** Keys of different lengths on one table

    The theorems about tables of depth [k] say nothing of a key whose length
    is not [k].  The code accepts such a key: a shorter one returns an inner
    dict, a longer one indexes the leaf of its prefix as a numpy array. *)

Example shorter_key_returns_inner_dict :
  ∃ h1, get plain_table.1 [1; 2]%Z plain_table.2 = (Ok (Ref 2), h1)
      ∧ get plain_table.1 [1]%Z h1 = (Ok (Ref 1), h1)
      ∧ h1 !! 1 = Some (Dict {[ 2%Z := 2 ]}).
Proof. eexists. repeat split; vm_compute; reflexivity. Qed.

Example longer_key_indexes_the_leaf :
  ∃ h1, get plain_table.1 [1]%Z plain_table.2 = (Ok (Ref 1), h1)
      ∧ get plain_table.1 [1; 0]%Z h1 = (Ok (Scalar 0%float), h1)
      ∧ get plain_table.1 [1; -1]%Z h1 = (Ok (Scalar 0%float), h1)
      ∧ get plain_table.1 [1; 2]%Z h1 = (Raise IndexError, h1)
      ∧ get plain_table.1 [1; 0; 0]%Z h1 = (Raise IndexError, h1).
Proof. eexists. repeat split; vm_compute; reflexivity. Qed.

(** In exact arithmetic the value that binary64 loses is in the last
    bucket. *)
Example unit_bucketer_exact :
  Bucketer.get_bucketed (A:=Q) unit_bucketer (9007199254740991 # 9007199254740992)%Q
  = Ok 48%Z.
Proof. vm_compute. reflexivity. Qed.

(** ** The theorems at concrete inputs *)

(** C1 at [Bucketer(0, 10, 5)] and 2.0, in binary64. *)
Lemma get_bucketed_first_match_at_decade :
  (0 < Bucketer.n_buckets (A:=float) decade_bucketer)%Z
  ∧ ∃ r, Bucketer.get_bucketed (A:=float) decade_bucketer 2%float = Ok r.
Proof.
  split; [reflexivity|].
  destruct (get_bucketed_first_match (A:=float) decade_bucketer 2%float eq_refl)
    as (r & Hr & _).
  exists r. exact Hr.
Defined.

(** C4 at [Bucketer(0, 10, 5)] with 1.999 and 2, in exact arithmetic. *)
Lemma get_bucketed_exact_at_decade :
  ∃ b1 b2, Bucketer.get_bucketed (A:=Q) decade_bucketer (1999 # 1000)%Q = Ok b1
         ∧ Bucketer.get_bucketed (A:=Q) decade_bucketer 2%Q = Ok b2
         ∧ (0 <= b1)%Z ∧ (b1 <= b2)%Z ∧ (b2 < 5)%Z.
Proof.
  apply (get_bucketed_exact_range_monotone decade_bucketer (1999 # 1000)%Q 2%Q).
  - reflexivity.
  - reflexivity.
  - vm_compute. discriminate.
  - vm_compute. discriminate.
  - reflexivity.
Defined.

(** C3 as amended, at [MultiBucketer([0, -5], [10, 5], 5)] and a vector of
    three values. *)
Lemma multi_get_bucketed_truncates_at_pair :
  MultiBucketer.get_bucketed (A:=float) pair_bucketer [2; 0; 7]%float
  = MultiBucketer.get_bucketed (A:=float) pair_bucketer (take 2 [2; 0; 7]%float).
Proof.
  exact (proj1 (multi_get_bucketed_truncates (A:=float) [0; -5]%float [10; 5]%float 5
                  pair_bucketer [2; 0; 7]%float eq_refl)).
Defined.

(** C7 as stated fails on the code.  [ObservationDict(0, 2)] has int64
    leaves: after [v = get([1, 2])] and [v[1] = 5.5] the element is 5, and
    5 is not 5.5. *)
Lemma int_leaf_drops_fraction :
  (∃ h1 h2,
     get int_table.1 [1; 2]%Z int_table.2 = (Ok (Ref 2), h1)
     ∧ setitem 2 1 (PyFloat 5.5) h1 = Some h2
     ∧ get int_table.1 [1; 2]%Z h2 = (Ok (Ref 2), h2)
     ∧ getitem 2 1 h2 = Some 5%Z)
  ∧ py_eq (item 5%Z) (PyFloat 5.5) = false
  ∧ ¬ write_reads_back int_table.1 ([1; 2]%Z : observation None) 1 (PyFloat 5.5) int_table.2.
Proof.
  split; [|split; [vm_compute; reflexivity|]].
  - eexists _, _. repeat split; vm_compute; reflexivity.
  - intros Hclaim.
    destruct (Hclaim 2 _ _ eq_refl eq_refl) as (_ & e & Hitem & Heq).
    vm_compute in Hitem. injection Hitem as <-. vm_compute in Heq. discriminate.
Qed.

(** C7 as amended, on a new table without bucketer: key [1, 2], action 1,
    value 5.0, float64 leaves. *)
Lemma write_through_reference_at_new_table :
  ∃ v h1 h2,
    get plain_table.1 [1; 2]%Z plain_table.2 = (Ok (Ref v), h1)
    ∧ setitem v 1 (PyFloat 5) h1 = Some h2
    ∧ get plain_table.1 [1; 2]%Z h2 = (Ok (Ref v), h2)
    ∧ getitem v 1 h2 = Some 5%float.
Proof.
  apply (proj2 (proj1 write_through_reference_persists float _ float _ None plain_table.1
                         ([1; 2]%Z : observation None) plain_table.2 1 (PyFloat 5))
           2 [1; 2]%Z 5%float).
  - apply init_tree_inv.
  - apply init_uniform. lia.
  - reflexivity.
  - reflexivity.
  - simpl. lia.
  - reflexivity.
Defined.

(** C8 on a new table without bucketer: keys [1, 2] and [1, 3]. *)
Lemma distinct_keys_at_new_table :
  ∃ v1 h1 v2 h2,
    get plain_table.1 [1; 2]%Z plain_table.2 = (Ok (Ref v1), h1)
    ∧ get plain_table.1 [1; 3]%Z h1 = (Ok (Ref v2), h2)
    ∧ v1 ≠ v2.
Proof.
  destruct (distinct_keys_distinct_leaves plain_table.1
              ([1; 2]%Z : observation None) ([1; 3]%Z : observation None)
              [1; 2]%Z [1; 3]%Z plain_table.2)
    as [Hdistinct Hleaves].
  - apply init_tree_inv.
  - reflexivity.
  - reflexivity.
  - discriminate.
  - destruct (Hleaves 2) as (v1 & h1 & v2 & h2 & _ & _ & Hget1 & Hget2 & _).
    + apply init_uniform. lia.
    + reflexivity.
    + reflexivity.
    + exists v1, h1, v2, h2. split; [exact Hget1|]. split; [exact Hget2|].
      exact (proj1 (Hdistinct v1 h1 v2 h2 Hget1 Hget2)).
Defined.

(** ** Bucketer: exceptions and the values it can return *)

Section bucketer_results.
Context {A : Type} `{Number A}.
Implicit Types (self : Bucketer.t A) (value : A).

Lemma range_nonpositive n : (n <= 0)%Z → range n = [].
Proof. intros Hn. unfold range. by replace (Z.to_nat n) with 0 by lia. Qed.

(** No bucket matches: the result is the fallthrough of lines 54-57. *)
Lemma get_bucketed_no_match self value :
  (0 < Bucketer.n_buckets self)%Z →
  (∀ i, (0 <= i < Bucketer.n_buckets self)%Z →
        Bucketer.in_bucket self (Bucketer.step_expr self) value i = false) →
  Bucketer.get_bucketed self value = Ok (fallthrough self).
Proof.
  intros Hn Hnone. unfold Bucketer.get_bucketed, Bucketer.step_size, fallthrough.
  destruct (Z.eqb_spec (Bucketer.n_buckets self) 0) as [Hz|_]; [lia|]. simpl.
  pose proof (for_bucket_range self (Bucketer.step_expr self) value Hn) as Hloop.
  destruct (Bucketer.for_bucket _ _ _ _ _) as [b|x].
  - destruct Hloop as (Hb & Hm & _). rewrite Hnone in Hm by done. done.
  - destruct Hloop as [_ ->]. by destruct (int_eq _ _).
Qed.

(** Bucket [b] matches and none before it: the result is [b]. *)
Lemma get_bucketed_match self value b :
  (0 <= b < Bucketer.n_buckets self)%Z →
  Bucketer.in_bucket self (Bucketer.step_expr self) value b = true →
  (∀ i, (0 <= i < b)%Z → Bucketer.in_bucket self (Bucketer.step_expr self) value i = false) →
  Bucketer.get_bucketed self value = Ok b.
Proof.
  intros Hb Hin Hfirst. unfold Bucketer.get_bucketed, Bucketer.step_size.
  destruct (Z.eqb_spec (Bucketer.n_buckets self) 0) as [Hz|_]; [lia|]. simpl.
  pose proof (for_bucket_range self (Bucketer.step_expr self) value ltac:(lia)) as Hloop.
  destruct (Bucketer.for_bucket _ _ _ _ _) as [b'|x].
  - destruct Hloop as (Hb' & Hm & Hfirst'). f_equal.
    destruct (Z.lt_trichotomy b b') as [Hlt|[->|Hgt]]; [|done|].
    + rewrite Hfirst' in Hin by lia. done.
    + rewrite Hfirst in Hm by lia. done.
  - destruct Hloop as [Hnone _]. rewrite Hnone in Hin by done. done.
Qed.

(** With no bucket at all the division of line 48 decides: it raises, or
    the loop does not run and line 54 reads [bucket]. *)
Lemma get_bucketed_zero_count self value :
  Bucketer.n_buckets self = 0%Z →
  Bucketer.get_bucketed self value
  = Raise (if div_zero_raises then ZeroDivisionError else UnboundLocalError).
Proof.
  unfold Bucketer.get_bucketed, Bucketer.step_size. intros ->.
  by destruct div_zero_raises.
Qed.

Lemma get_bucketed_negative_count self value :
  (Bucketer.n_buckets self < 0)%Z →
  Bucketer.get_bucketed self value = Raise UnboundLocalError.
Proof.
  intros Hn. unfold Bucketer.get_bucketed, Bucketer.step_size.
  destruct (Z.eqb_spec (Bucketer.n_buckets self) 0) as [Hz|_]; [lia|].
  simpl. by rewrite range_nonpositive by lia.
Qed.

Lemma get_bucketed_between self value r :
  Bucketer.get_bucketed self value = Ok r → (-1 <= r <= Bucketer.n_buckets self)%Z.
Proof.
  destruct (Z.lt_trichotomy (Bucketer.n_buckets self) 0) as [Hn|[Hn|Hn]].
  - by rewrite get_bucketed_negative_count.
  - by rewrite get_bucketed_zero_count.
  - unfold Bucketer.get_bucketed, Bucketer.step_size.
    destruct (Z.eqb_spec (Bucketer.n_buckets self) 0) as [Hz|_]; [lia|]. simpl.
    pose proof (for_bucket_range self (Bucketer.step_expr self) value Hn) as Hloop.
    destruct (Bucketer.for_bucket _ _ _ _ _) as [b|x].
    + destruct Hloop as (Hb & _). intros [= <-]. lia.
    + destruct Hloop as [_ ->]. destruct (int_eq _ _); intros [= <-]; lia.
Qed.

(** X2.  A result of [get_bucketed] lies between [-1] and [n_buckets].
    It is [n_buckets] only when the loop's last counter [n_buckets - 1]
    equals [upper_bound], and it is negative only when no bucket took the
    value. *)
Theorem get_bucketed_result_bounds self value r :
  Bucketer.get_bucketed self value = Ok r →
  (-1 <= r <= Bucketer.n_buckets self)%Z
  ∧ (r = Bucketer.n_buckets self →
       int_eq (Bucketer.n_buckets self - 1)%Z (Bucketer.upper_bound self) = true)
  ∧ ((r < 0)%Z →
       ∀ i, (0 <= i < Bucketer.n_buckets self)%Z →
            Bucketer.in_bucket self (Bucketer.step_expr self) value i = false).
Proof.
  destruct (Z.lt_trichotomy (Bucketer.n_buckets self) 0) as [Hn|[Hn|Hn]].
  { by rewrite get_bucketed_negative_count. }
  { by rewrite get_bucketed_zero_count. }
  unfold Bucketer.get_bucketed, Bucketer.step_size.
  destruct (Z.eqb_spec (Bucketer.n_buckets self) 0) as [Hz|Hnz]; [lia|]. simpl.
  pose proof (for_bucket_range self (Bucketer.step_expr self) value Hn) as Hloop.
  destruct (Bucketer.for_bucket _ _ _ _ _) as [b|x].
  - destruct Hloop as (Hb & Hm & _). intros [= <-]. repeat split; lia.
  - destruct Hloop as [Hnone ->].
    destruct (int_eq _ _) eqn:Heq; intros [= <-]; repeat split; try lia; try done.
Qed.
End bucketer_results.


(** ** Bucketer without rounding: what interval the buckets cover *)

Section bucketer_cover.
Variable self : Bucketer.t Q.
Hypothesis buckets_positive : (0 < Bucketer.n_buckets self)%Z.

Local Abbreviation lower := (Bucketer.lower_bound self).
Local Abbreviation upper := (Bucketer.upper_bound self).
Local Abbreviation n := (Bucketer.n_buckets self).
Local Abbreviation step := (Bucketer.step_expr self).
Local Abbreviation edge := (Bucketer.edge self (Bucketer.step_expr self)).

Lemma Q_n_pos : (0 < inject_Z n)%Q.
Proof. unfold Qlt. simpl. lia. Qed.

Lemma Q_step_nonneg : (0 <= step)%Q.
Proof.
  pose proof (Q_n_steps self buckets_positive) as Hsteps.
  pose proof (Qabs_nonneg lower). pose proof (Qabs_nonneg upper). pose proof Q_n_pos.
  destruct (Qlt_le_dec step 0) as [Hneg|]; [|done]. nra.
Qed.

Lemma Q_edge_monotone b b' : (b <= b')%Z → (edge b <= edge b')%Q.
Proof.
  intros Hb. rewrite !Q_edge_unfold. rewrite Zle_Qle in Hb.
  pose proof Q_step_nonneg. nra.
Qed.

(** The last edge is [lower_bound + |lower_bound| + |upper_bound|]. *)
Lemma Q_edge_end : (edge n == lower + Qabs lower + Qabs upper)%Q.
Proof. rewrite Q_edge_unfold, (Q_n_steps self buckets_positive). lra. Qed.

Lemma Q_outside_no_match value i :
  (value < lower ∨ lower + Qabs lower + Qabs upper <= value)%Q →
  (0 <= i < n)%Z →
  Bucketer.in_bucket self step value i = false.
Proof.
  intros Hout Hi. apply not_true_is_false. intros [Hlow Hup]%Q_in_bucket.
  destruct Hout as [Hbelow|Habove].
  - pose proof (Q_edge_monotone 0 i ltac:(lia)) as Hmono.
    rewrite Q_edge_first in Hmono. lra.
  - pose proof (Q_edge_monotone (i + 1) n ltac:(lia)) as Hmono.
    rewrite Q_edge_end in Hmono. lra.
Qed.

Lemma Q_get_bucketed_covered value :
  (lower <= value)%Q → (value < lower + Qabs lower + Qabs upper)%Q →
  ∃ b, Bucketer.get_bucketed self value = Ok b
     ∧ (0 <= b < n)%Z ∧ (edge b <= value ∧ value < edge (b + 1))%Q.
Proof.
  intros Hlow Hup. unfold Bucketer.get_bucketed, Bucketer.step_size.
  destruct (Z.eqb_spec n 0) as [Hz|_]; [lia|]. simpl.
  pose proof (for_bucket_range self step value buckets_positive) as Hloop.
  destruct (Bucketer.for_bucket _ _ _ _ _) as [b|x].
  - destruct Hloop as (Hb & Hm & _). exists b. split; [done|]. split; [done|].
    by apply Q_in_bucket.
  - destruct Hloop as [Hnone _]. exfalso.
    assert (edge n <= value)%Q as Hn by (apply Q_unmatched_above; [done|lia|done]).
    rewrite Q_edge_end in Hn. lra.
Qed.

(** X3.  In exact arithmetic the buckets cover
    [lower_bound, lower_bound + |lower_bound| + |upper_bound|), which is
    [lower_bound, upper_bound) only when [lower_bound <= 0 <= upper_bound]:
    a value [v] in it gets bucket [floor((v - lower_bound) / step_size)],
    a number in [0, n_buckets). *)
Theorem get_bucketed_exact_floor (value : Q) :
  (lower <= value)%Q → (value < lower + Qabs lower + Qabs upper)%Q →
  Bucketer.get_bucketed self value = Ok (Qfloor ((value - lower) / step))
  ∧ (0 <= Qfloor ((value - lower) / step) < n)%Z.
Proof.
  intros Hlow Hup.
  destruct (Q_get_bucketed_covered value Hlow Hup) as (b & Hb & Hrange & Hedge & Hedge').
  rewrite Q_edge_unfold in Hedge, Hedge'. rewrite inject_Z_plus in Hedge'.
  change (inject_Z 1) with 1%Q in Hedge'.
  assert (Hstep : (0 < step)%Q).
  { pose proof Q_step_nonneg. pose proof (Q_n_steps self buckets_positive).
    pose proof Q_n_pos. destruct (Qlt_le_dec 0 step) as [|Hle]; [done|].
    assert (step == 0)%Q as Hzero by lra. rewrite Hzero in *. lra. }
  set (x := ((value - lower) / step)%Q).
  assert (Hx : (x * step == value - lower)%Q).
  { unfold x. field. lra. }
  assert (Hbx : (inject_Z b <= x)%Q).
  { apply (Qmult_le_r _ _ step Hstep). lra. }
  assert (Hxb : (x < inject_Z b + 1)%Q).
  { apply (Qmult_lt_r _ _ step Hstep). lra. }
  assert (Qfloor x = b) as ->; [|done].
  pose proof (Qfloor_le x) as Hfl. pose proof (Qlt_floor x) as Hlf.
  assert (inject_Z (Qfloor x) < inject_Z (b + 1))%Q as H1.
  { rewrite inject_Z_plus. change (inject_Z 1) with 1%Q. lra. }
  assert (inject_Z b < inject_Z (Qfloor x + 1))%Q as H2 by lra.
  rewrite <- Zlt_Qlt in H1, H2. lia.
Qed.

(** X4.  In exact arithmetic a value below [lower_bound], or at or above
    [lower_bound + |lower_bound| + |upper_bound|], is taken by no bucket:
    the result is the fallthrough, [n_buckets] when [n_buckets - 1] equals
    [upper_bound] and [-1] otherwise. *)
Theorem get_bucketed_exact_outside (value : Q) :
  (value < lower ∨ lower + Qabs lower + Qabs upper <= value)%Q →
  Bucketer.get_bucketed self value = Ok (fallthrough self)
  ∧ fallthrough self = (if Qeq_bool (inject_Z (n - 1)) upper then n else (-1)%Z).
Proof.
  intros Hout. split; [|done].
  apply get_bucketed_no_match; [done|]. intros i Hi. by apply Q_outside_no_match.
Qed.

(** X5.  The upper bound itself: with [lower_bound <= 0 <= upper_bound] the
    last bucket ends at [upper_bound] and excludes it, so
    [get_bucketed(upper_bound)] is the fallthrough: [-1], unless
    [upper_bound] happens to equal [n_buckets - 1]. *)
Theorem get_bucketed_exact_at_upper_bound :
  (lower <= 0)%Q → (0 <= upper)%Q →
  Bucketer.get_bucketed self upper = Ok (fallthrough self)
  ∧ (¬ (inject_Z (n - 1) == upper)%Q → Bucketer.get_bucketed self upper = Ok (-1)%Z)
  ∧ ((inject_Z (n - 1) == upper)%Q → Bucketer.get_bucketed self upper = Ok n).
Proof.
  intros Hl Hu.
  assert (Hfall : Bucketer.get_bucketed self upper = Ok (fallthrough self)).
  { apply get_bucketed_no_match; [done|]. intros i Hi. apply Q_outside_no_match; [|done].
    right. rewrite (Qabs_neg lower), (Qabs_pos upper) by done. lra. }
  split; [done|]. rewrite Hfall. unfold fallthrough. simpl.
  split; intros Heq.
  - destruct (Qeq_bool _ _) eqn:Hb; [|done]. by apply Qeq_bool_iff in Hb.
  - apply Qeq_bool_iff in Heq. by rewrite Heq.
Qed.
End bucketer_cover.

(** ** MultiBucketer: construction, exceptions, independence of coordinates *)

Section multibucketer_more.
Context {A : Type} `{Number A}.
Implicit Types (bucketers : list (Bucketer.t A)) (values : list A).

(** X6.  [MultiBucketer(lower_bounds, upper_bounds, n_buckets)] fails its
    assertion exactly when the two sequences differ in length.  Otherwise
    [n] is that length, there are [n] bucketers, and bucketer [i] is
    [Bucketer(lower_bounds[i], upper_bounds[i], n_buckets)]: the shared bucket
    count is not checked here, not even for being positive. *)
Theorem multi_init_result (lowers uppers : list A) (n_buckets : Z) :
  (length lowers ≠ length uppers →
     MultiBucketer.init lowers uppers n_buckets = Raise AssertionError)
  ∧ (length lowers = length uppers →
     ∃ self, MultiBucketer.init lowers uppers n_buckets = Ok self
       ∧ MultiBucketer.n self = length lowers
       ∧ MultiBucketer.n_buckets self = n_buckets
       ∧ length (MultiBucketer.bucketers self) = length lowers
       ∧ ∀ i lower upper,
           lowers !! i = Some lower → uppers !! i = Some upper →
           MultiBucketer.bucketers self !! i
           = Some (Bucketer.Build lower upper n_buckets)).
Proof.
  unfold MultiBucketer.init. split; intros Hlen.
  - by rewrite decide_False.
  - rewrite decide_True by done. eexists. split; [done|]. simpl.
    split; [done|]. split; [done|]. split; [by apply make_bucketers_length|].
    intros i lower upper Hl Hu. apply make_bucketers_lookup. eauto.
Qed.

Lemma bucket_all_first_raises bucketer bucketers value values e :
  Bucketer.get_bucketed bucketer value = Raise e →
  MultiBucketer.bucket_all (bucketer :: bucketers) (value :: values) = Raise e.
Proof. intros Hfirst. simpl. by rewrite Hfirst. Qed.


Lemma bucket_all_between bucketers (n_buckets : Z) : ∀ values out,
  (∀ bucketer, bucketer ∈ bucketers → Bucketer.n_buckets bucketer = n_buckets) →
  MultiBucketer.bucket_all bucketers values = Ok out →
  ∀ key, key ∈ out → (-1 <= key <= n_buckets)%Z.
Proof.
  induction bucketers as [|bucketer bucketers IH]; intros [|value values] out Hcount; simpl;
    try (intros [= <-] key Hkey; by apply elem_of_nil in Hkey).
  destruct (Bucketer.get_bucketed bucketer value) as [b|e] eqn:Hfirst; [|done]. simpl.
  destruct (MultiBucketer.bucket_all bucketers values) as [bs|e] eqn:Hrest; [|done].
  simpl. intros [= <-] key [->|Hkey]%elem_of_cons.
  - rewrite <- (Hcount bucketer) by left. by eapply get_bucketed_between.
  - eapply (IH values bs); [|done|done]. intros b' Hb'. apply Hcount. by right.
Qed.

(** X8.  Every key a multi-bucketer produces lies between [-1] and
    [n_buckets]: each coordinate has at most [n_buckets + 2] keys. *)
Theorem multi_keys_between (lowers uppers : list A) (n_buckets : Z)
    (self : MultiBucketer.t A) values out :
  MultiBucketer.init lowers uppers n_buckets = Ok self →
  MultiBucketer.get_bucketed self values = Ok out →
  ∀ key, key ∈ out → (-1 <= key <= n_buckets)%Z.
Proof.
  intros (Hlen & Hn & Hn' & Hbs)%init_bucketers Hout.
  eapply bucket_all_between; [|exact Hout].
  intros bucketer (i & Hi)%list_elem_of_lookup. rewrite Hbs in Hi.
  by apply make_bucketers_lookup in Hi as (lower & upper & _ & _ & ->).
Qed.

(** X9.  The coordinates are bucketed independently: replacing the value
    at one position changes no key at any other position, and not the
    number of keys. *)
Theorem multi_coordinates_independent (self : MultiBucketer.t A)
    values out (j : nat) (x : A) out' :
  MultiBucketer.get_bucketed self values = Ok out →
  MultiBucketer.get_bucketed self (<[j := x]> values) = Ok out' →
  length out' = length out ∧ ∀ i, i ≠ j → out' !! i = out !! i.
Proof.
  unfold MultiBucketer.get_bucketed. generalize (MultiBucketer.bucketers self).
  intros bucketers. revert values out j out'.
  induction bucketers as [|bucketer bucketers IH]; intros [|value values] out j out'; simpl;
    try (by intros [= <-] [= <-]).
  - destruct j as [|j]; simpl.
    + destruct (Bucketer.get_bucketed bucketer value) as [b|e]; [|done]. simpl.
      destruct (Bucketer.get_bucketed bucketer x) as [b'|e]; [|done]. simpl.
      destruct (MultiBucketer.bucket_all bucketers values) as [bs|e]; [|done]. simpl.
      intros [= <-] [= <-]. split; [done|]. intros [|i] Hi; done.
    + destruct (Bucketer.get_bucketed bucketer value) as [b|e]; [|done]. simpl.
      destruct (MultiBucketer.bucket_all bucketers values) as [bs|e] eqn:Hrest; [|done].
      destruct (MultiBucketer.bucket_all bucketers (<[j := x]> values)) as [bs'|e] eqn:Hrest';
        [|done].
      simpl. intros [= <-] [= <-].
      destruct (IH values bs j bs' Hrest Hrest') as [Hlen Hsame].
      split; [simpl; by rewrite Hlen|]. intros [|i] Hi; [done|]. simpl. apply Hsame. lia.
Qed.

(** X10.  Bucketing the first [m] values gives the first [m] keys: a
    shorter observation yields a prefix of the key. *)
Theorem multi_get_bucketed_prefix (self : MultiBucketer.t A) values out (m : nat) :
  MultiBucketer.get_bucketed self values = Ok out →
  MultiBucketer.get_bucketed self (take m values) = Ok (take m out).
Proof.
  unfold MultiBucketer.get_bucketed. generalize (MultiBucketer.bucketers self).
  intros bucketers. revert values out m.
  induction bucketers as [|bucketer bucketers IH]; intros values out m.
  - simpl. intros [= <-]. by rewrite take_nil.
  - destruct values as [|value values]; simpl.
    + intros [= <-]. by rewrite !take_nil.
    + destruct (Bucketer.get_bucketed bucketer value) as [b|e] eqn:Hb; [|done]. simpl.
      destruct (MultiBucketer.bucket_all bucketers values) as [bs|e] eqn:Hrest; [|done].
      simpl. intros [= <-]. destruct m as [|m]; simpl; [done|].
      rewrite Hb. simpl. by rewrite (IH values bs m Hrest).
Qed.
End multibucketer_more.

(** ** ObservationDict: misses, hits, exceptions *)

Section table_more.
Context {A : Type} `{Number A} {E : Type} `{Dtype E}.
Context {bucketer : option (MultiBucketer.t A)} (self : t (E:=E) bucketer).
Implicit Types (h : heap E) (l : loc) (keys : list Z).

(** A walk that starts in an empty dict creates one object per key and ends
    in a new leaf. *)
Lemma for_key_fresh len keys : ∀ i l h,
  h !! l = Some (Dict ∅) → keys ≠ [] → i + length keys = len →
  ∃ r h', for_key self len i keys (Ref l) h = (Ok (Ref r), h')
        ∧ length h ≤ r
        ∧ h' !! r = Some (full (n_actions self) (init_value self))
        ∧ length h' = length h + length keys.
Proof.
  induction keys as [|key keys IH]; intros i l h Hl Hne Hlen; [done|].
  simpl. rewrite Hl, lookup_empty.
  set (new := if decide (i ≠ len - 1) then Dict ∅
              else full (n_actions self) (init_value self)).
  set (h1 := <[l := Dict (<[key := length h]> ∅)]> (h ++ [new])).
  assert (Hlt : l < length h) by (by eapply lookup_lt_Some).
  assert (Hnew : h1 !! length h = Some new).
  { unfold h1. rewrite (lookup_created h l ∅ key new (length h) Hl).
    rewrite decide_False by lia. by rewrite decide_True. }
  assert (Hlen1 : length h1 = S (length h)).
  { unfold h1. rewrite length_insert, length_app. simpl. lia. }
  destruct keys as [|key' keys].
  - simpl in *. exists (length h), h1. split; [done|]. split; [done|].
    split; [|lia]. rewrite Hnew. unfold new. by rewrite decide_False by lia.
  - destruct (IH (S i) (length h) h1) as (r & h' & Hrun & Hr & Hleaf & Hlen');
      [|done|simpl in *; lia|].
    { rewrite Hnew. unfold new. by rewrite decide_True by (simpl in *; lia). }
    exists r, h'. split; [done|]. split; [lia|]. split; [done|].
    rewrite Hlen', Hlen1. simpl. lia.
Qed.

(** After the first missing key every further key is missing too: the walk
    goes on in the object just created. *)
Lemma for_key_created len i l h entries key keys :
  h !! l = Some (Dict entries) → keys ≠ [] → S i + length keys = len →
  ∃ r h',
    for_key self len (S i) keys (Ref (length h))
      (<[l := Dict (<[key := length h]> entries)]>
         (h ++ [if decide (i ≠ len - 1) then Dict ∅
                else full (n_actions self) (init_value self)]))
    = (Ok (Ref r), h')
    ∧ length h < r
    ∧ h' !! r = Some (full (n_actions self) (init_value self))
    ∧ length h' = S (length h) + length keys.
Proof.
  intros Hl Hne Hlen. apply lookup_lt_Some in Hl as Hlt.
  destruct (for_key_fresh len keys (S i) (length h)
              (<[l := Dict (<[key := length h]> entries)]>
                 (h ++ [if decide (i ≠ len - 1) then Dict ∅
                        else full (n_actions self) (init_value self)])))
    as (r & h' & Hok & Hr & Hleaf & Hlen'); [|done|done|].
  - rewrite (lookup_created h l entries key _ (length h) Hl).
    rewrite decide_False by lia. rewrite decide_True by done.
    rewrite decide_True; [done|]. destruct keys; [done|]. simpl in Hlen. lia.
  - rewrite length_insert, length_app in Hr, Hlen'. simpl in Hr, Hlen'.
    exists r, h'. split; [done|]. split; [lia|]. split; [done|]. lia.
Qed.

Lemma for_key_scalar_heap len i keys x h out h' :
  for_key self len i keys (Scalar x) h = (out, h') → h' = h.
Proof. destruct keys; simpl; by intros [= _ <-]. Qed.

Lemma for_key_raise len keys : ∀ i cell h e h',
  i + length keys = len →
  for_key self len i keys cell h = (Raise e, h') → h' = h.
Proof.
  induction keys as [|key keys IH]; intros i cell h e h' Hlen; simpl; [done|].
  destruct cell as [l|x]; [|by intros [= _ <-]].
  destruct (h !! l) as [[entries|elements]|] eqn:Hl; [| |by intros [= _ <-]].
  - destruct (entries !! key) as [l'|] eqn:Hkey.
    + apply IH. simpl in Hlen. lia.
    + destruct keys as [|key' keys]; [done|].
      destruct (for_key_created len i l h entries key (key' :: keys) Hl)
        as (r & h'' & Hok & _); [done|simpl in *; lia|].
      by rewrite Hok.
  - destruct (array_index elements key) as [x|]; [|by intros [= _ <-]].
    apply for_key_scalar_heap.
Qed.

Lemma for_key_allocates len keys : ∀ i l h out h',
  i + length keys = len →
  for_key self len i keys (Ref l) h = (out, h') →
  length h' = length h + missing h keys l.
Proof.
  induction keys as [|key keys IH]; intros i l h out h' Hlen; simpl.
  - intros [= _ <-]. lia.
  - destruct (h !! l) as [[entries|elements]|] eqn:Hl; [| |intros [= _ <-]; lia].
    + destruct (entries !! key) as [l'|] eqn:Hkey.
      * apply IH. simpl in Hlen. lia.
      * destruct keys as [|key' keys].
        -- simpl. intros [= _ <-]. rewrite length_insert, length_app. simpl. lia.
        -- destruct (for_key_created len i l h entries key (key' :: keys) Hl)
             as (r & h'' & Hok & _ & _ & Hlen'); [done|simpl in *; lia|].
           rewrite Hok. intros [= _ <-]. rewrite Hlen'. simpl. lia.
    + destruct (array_index elements key) as [x|]; [|intros [= _ <-]; lia].
      intros Hrun%for_key_scalar_heap. subst. lia.
Qed.

Lemma for_key_miss len keys : ∀ i l h r h',
  i + length keys = len →
  resolve h keys l = None →
  for_key self len i keys (Ref l) h = (Ok (Ref r), h') →
  length h ≤ r ∧ h' !! r = Some (full (n_actions self) (init_value self)).
Proof.
  induction keys as [|key keys IH]; intros i l h r h' Hlen; simpl; [done|].
  destruct (h !! l) as [[entries|elements]|] eqn:Hl; [| |done].
  - destruct (entries !! key) as [l'|] eqn:Hkey; simpl.
    + apply IH. simpl in Hlen. lia.
    + intros _. apply lookup_lt_Some in Hl as Hlt.
      destruct keys as [|key' keys].
      * simpl. intros [= <- <-]. split; [done|].
        rewrite (lookup_created h l entries key _ (length h) Hl).
        rewrite decide_False by lia. rewrite decide_True by done.
        by rewrite decide_False by (simpl in *; lia).
      * destruct (for_key_created len i l h entries key (key' :: keys) Hl)
          as (r' & h'' & Hok & Hr & Hleaf & _); [done|simpl in *; lia|].
        rewrite Hok. intros [= <- <-]. split; [lia|done].
  - intros _. destruct (array_index elements key) as [x|]; [|done].
    intros Hrun. by apply for_key_scalar in Hrun as (_ & ? & _).
Qed.
Lemma missing_le h keys : ∀ l, missing h keys l ≤ length keys.
Proof.
  induction keys as [|key keys IH]; intros l; simpl; [done|].
  destruct (h !! l) as [[entries|elements]|]; [|lia..].
  destruct (entries !! key) as [l'|]; [|done]. specialize (IH l'). lia.
Qed.

(** Keys that exist are walked without a change, whatever follows them. *)
Lemma for_key_app_resolved len keys rest : ∀ i l0 l h,
  resolve h keys l0 = Some l →
  for_key self len i (keys ++ rest) (Ref l0) h
  = for_key self len (i + length keys) rest (Ref l) h.
Proof.
  induction keys as [|key keys IH]; intros i l0 l h; simpl.
  - intros [= <-]. by rewrite Nat.add_0_r.
  - destruct (h !! l0) as [[entries|elements]|]; [|done..].
    destruct (entries !! key) as [l'|]; [|done]. simpl. intros Hr.
    rewrite (IH (S i) l' l h Hr). f_equal. lia.
Qed.

Lemma array_index_raise (elements : list E) (j : Z) e :
  array_index elements j = Raise e → e = IndexError.
Proof.
  unfold array_index. destruct (decide _); [|by intros [= <-]].
  destruct (elements !! _); [done|by intros [= <-]].
Qed.

(** X11.  An exception leaves the table as it was: when [get] raises,
    nothing has been stored. *)
Theorem get_raise_leaves_heap (obs : observation bucketer) h e h' :
  get self obs h = (Raise e, h') → h' = h.
Proof.
  unfold get. destruct (discretise self obs) as [keys|e0]; [|by intros [= _ <-]].
  by apply for_key_raise.
Qed.

(** X12.  [get] returns a reference and leaves the heap unchanged exactly
    when every key of the observation is already there; it then returns what
    the keys lead to. *)
Theorem get_hit_iff_present (obs : observation bucketer) keys h l :
  discretise self obs = Ok keys →
  get self obs h = (Ok (Ref l), h) ↔ resolve h keys (table self) = Some l.
Proof.
  intros Hkeys. unfold get. rewrite Hkeys. split.
  - apply for_key_resolve.
  - apply resolve_for_key.
Qed.

(** X13.  [get] allocates exactly one object per key from the first
    missing key on, and none when the walk ends in an exception or in a number
    read out of a leaf: at most [len(keys)] objects, and the heap never
    shrinks. *)
Theorem get_allocates (obs : observation bucketer) keys h out h' :
  discretise self obs = Ok keys →
  get self obs h = (out, h') →
  length h' = length h + missing h keys (table self)
  ∧ missing h keys (table self) ≤ length keys.
Proof.
  intros Hkeys. unfold get. rewrite Hkeys. intros Hrun.
  split; [|apply missing_le].
  by apply (for_key_allocates (length keys) keys 0 (table self) h out h').
Qed.

(** X14.  A miss creates the leaf: when the keys do not all exist and
    [get] returns a reference, the object is new and is a vector of
    [n_actions] copies of [init_value].  In a table of depth [k] and for a
    key of [k] coordinates [get] does return a reference. *)
Theorem get_miss_creates_leaf (obs : observation bucketer) keys h :
  discretise self obs = Ok keys →
  resolve h keys (table self) = None →
  (∀ l h', get self obs h = (Ok (Ref l), h') →
     length h ≤ l
     ∧ h' !! l = Some (full (n_actions self) (init_value self))
     ∧ ∀ a, a < n_actions self → getitem l a h' = Some (init_value self))
  ∧ (∀ k, tree_inv self h → uniform self k h → length keys = k →
       ∃ l h', get self obs h = (Ok (Ref l), h')).
Proof.
  intros Hkeys Hmiss. split.
  - intros l h'. unfold get. rewrite Hkeys. intros Hrun.
    destruct (for_key_miss (length keys) keys 0 (table self) h l h') as [Hnew Hleaf];
      [done..|].
    split; [done|]. split; [done|]. intros a Ha. unfold getitem. rewrite Hleaf.
    unfold full. by apply lookup_replicate_2.
  - intros k Hinv Huni Hlen.
    destruct (get_table self k obs keys h Hinv Huni Hkeys Hlen)
      as (l & h' & elements & Hget & _). eauto.
Qed.

(** X15.  What was written through a reference survives every later
    [get], of whatever observation and with whatever outcome: the first
    observation still leads to the same object, and the element still holds
    what the write stored, the value converted to the element type of the
    leaf. *)
Theorem write_survives_later_gets (obs1 obs2 : observation bucketer)
    h v h1 (a : nat) (x : pynum) h2 out h3 :
  get self obs1 h = (Ok (Ref v), h1) →
  setitem v a x h1 = Some h2 →
  get self obs2 h2 = (out, h3) →
  get self obs1 h3 = (Ok (Ref v), h3)
  ∧ getitem v a h3 = getitem v a h2
  ∧ ∃ e, cast x = Some e ∧ getitem v a h3 = Some e.
Proof.
  intros Hget1 Hset Hget2.
  pose proof (get_extends self _ _ _ _ Hget2) as Hext.
  destruct (getitem_setitem _ _ _ _ _ Hset) as (e & Hcast & Hitem).
  assert (Hkept : getitem v a h3 = getitem v a h2).
  { unfold getitem in *. specialize (Hext v).
    destruct (h2 !! v) as [[entries|elements]|]; [done| |done]. by rewrite Hext. }
  split; [|split; [done|]].
  - unfold get in *. destruct (discretise self obs1) as [keys1|e0]; [|done].
    apply resolve_for_key. eapply resolve_extends; [done|].
    rewrite (resolve_setitem _ _ _ _ _ _ _ Hset). by eapply for_key_resolve.
  - exists e. split; [done|]. by rewrite Hkept.
Qed.

(** X16.  Observations with the same key share one leaf: after
    [get(obs1)] returned a reference, [get(obs2)] for any observation that is
    discretised to the same key returns the same object and stores
    nothing. *)
Theorem same_key_same_object (obs1 obs2 : observation bucketer) keys h l h1 :
  discretise self obs1 = Ok keys → discretise self obs2 = Ok keys →
  get self obs1 h = (Ok (Ref l), h1) →
  get self obs2 h1 = (Ok (Ref l), h1).
Proof.
  intros Hkeys1 Hkeys2. unfold get. rewrite Hkeys1, Hkeys2. intros Hrun.
  apply resolve_for_key. by eapply for_key_resolve.
Qed.

(** X17.  A key that continues past a leaf.  When the keys up to the last
    lead to a leaf, [get] indexes the leaf with the last key as numpy does
    and stores nothing: it returns the number at that index (a negative index
    counts from the end) and raises IndexError for an index out of range;
    with one more key after that it raises IndexError. *)
Theorem get_past_leaf (obs : observation bucketer) keys (j : Z) h l elements :
  resolve h keys (table self) = Some l →
  h !! l = Some (Array elements) →
  (discretise self obs = Ok (keys ++ [j]) →
     get self obs h
     = (match array_index elements j with
        | Ok x => Ok (Scalar x)
        | Raise e => Raise e
        end, h))
  ∧ (∀ j', discretise self obs = Ok (keys ++ [j; j']) →
       get self obs h = (Raise IndexError, h))
  ∧ ((0 <= j < Z.of_nat (length elements))%Z →
       ∃ x, elements !! Z.to_nat j = Some x ∧ array_index elements j = Ok x)
  ∧ ((- Z.of_nat (length elements) <= j < 0)%Z →
       ∃ x, elements !! Z.to_nat (Z.of_nat (length elements) + j) = Some x
          ∧ array_index elements j = Ok x)
  ∧ ((j < - Z.of_nat (length elements) ∨ Z.of_nat (length elements) <= j)%Z →
       array_index elements j = Raise IndexError).
Proof.
  intros Hr Hl. split; [|split; [|split; [|split]]].
  - intros Hkeys. unfold get. rewrite Hkeys.
    rewrite (for_key_app_resolved _ keys [j] 0 _ l h Hr). simpl. rewrite Hl.
    by destruct (array_index elements j).
  - intros j' Hkeys. unfold get. rewrite Hkeys.
    rewrite (for_key_app_resolved _ keys [j; j'] 0 _ l h Hr). simpl. rewrite Hl.
    destruct (array_index elements j) as [x|e] eqn:Hindex; [done|].
    by rewrite (array_index_raise _ _ _ Hindex).
  - intros Hj. unfold array_index. destruct (decide (j < 0)%Z); [lia|].
    destruct (decide (0 ≤ j < Z.of_nat (length elements))%Z); [|lia].
    destruct (elements !! Z.to_nat j) as [x|] eqn:Hx; [eauto|].
    apply lookup_ge_None_1 in Hx. lia.
  - intros Hj. unfold array_index. destruct (decide (j < 0)%Z); [|lia].
    destruct (decide _); [|lia].
    destruct (elements !! Z.to_nat _) as [x|] eqn:Hx; [eauto|].
    apply lookup_ge_None_1 in Hx. lia.
  - intros Hj. unfold array_index.
    destruct (decide (j < 0)%Z); destruct (decide _); try done; lia.
Qed.
End table_more.

(** ** main.py: when a checkpoint is written, and under which number *)

Section checkpoints.
Local Open Scope Z_scope.

Lemma checkpoint_due_true i_episode checkpoint_rate :
  Main.checkpoint_due i_episode checkpoint_rate = Ok true ↔
  0 < i_episode ∧ checkpoint_rate ≠ 0 ∧ (checkpoint_rate | i_episode).
Proof.
  unfold Main.checkpoint_due.
  destruct (Z.ltb_spec 0 i_episode) as [Hi|Hi]; [|split; [done|lia]].
  destruct (Z.eqb_spec checkpoint_rate 0) as [Hz|Hnz]; [split; [done|lia]|].
  rewrite <- (Z.mod_divide i_episode checkpoint_rate Hnz).
  destruct (Z.eqb_spec (i_episode mod checkpoint_rate) 0) as [Hm|Hm].
  - by split.
  - split; [done|]. by intros (_ & _ & ?).
Qed.

Lemma checkpoint_number_exact i_episode checkpoint_rate :
  checkpoint_rate ≠ 0 → (checkpoint_rate | i_episode) →
  Main.checkpoint_number i_episode checkpoint_rate * checkpoint_rate = i_episode.
Proof.
  intros Hnz [q ->]. unfold Main.checkpoint_number. by rewrite Z.div_mul.
Qed.

(** X18.  The test of line 45.  A checkpoint is due exactly in an episode
    [i > 0] that the rate divides, and its number times the rate is then [i];
    the test raises ZeroDivisionError exactly when the rate is 0 and [i > 0]:
    episode 0 never evaluates the remainder. *)
Theorem checkpoint_due_iff i_episode checkpoint_rate :
  (Main.checkpoint_due i_episode checkpoint_rate = Ok true ↔
     0 < i_episode ∧ checkpoint_rate ≠ 0 ∧ (checkpoint_rate | i_episode))
  ∧ (Main.checkpoint_due i_episode checkpoint_rate = Ok true →
     Main.checkpoint_number i_episode checkpoint_rate * checkpoint_rate = i_episode)
  ∧ (∀ e, Main.checkpoint_due i_episode checkpoint_rate = Raise e ↔
          0 < i_episode ∧ checkpoint_rate = 0 ∧ e = ZeroDivisionError).
Proof.
  split; [apply checkpoint_due_true|]. split.
  - intros (_ & Hnz & Hdiv)%checkpoint_due_true. by apply checkpoint_number_exact.
  - intros e. unfold Main.checkpoint_due.
    destruct (Z.ltb_spec 0 i_episode) as [Hi|Hi]; [|split; [done|lia]].
    destruct (Z.eqb_spec checkpoint_rate 0) as [Hz|Hnz].
    + split; [by intros [= <-]|by intros (_ & _ & ->)].
    + split; [done|]. by intros (_ & ? & _).
Qed.

(** X19.  A negative rate does not switch checkpoints off.  It is due in
    the same episodes as its absolute value, under a negative number; with the
    rate [-1], which the help text of [--checkpoint-rate] gives for "disable",
    every episode after the first writes a checkpoint, episode [i] under the
    number [-i]. *)
Theorem checkpoint_negative_rate i_episode checkpoint_rate :
  checkpoint_rate < 0 → 0 < i_episode →
  Main.checkpoint_due i_episode checkpoint_rate
    = Main.checkpoint_due i_episode (- checkpoint_rate)
  ∧ (Main.checkpoint_due i_episode checkpoint_rate = Ok true →
     Main.checkpoint_number i_episode checkpoint_rate
       = - Main.checkpoint_number i_episode (- checkpoint_rate)
     ∧ Main.checkpoint_number i_episode checkpoint_rate < 0)
  ∧ (checkpoint_rate = -1 →
     Main.checkpoint_due i_episode checkpoint_rate = Ok true
     ∧ Main.checkpoint_number i_episode checkpoint_rate = - i_episode).
Proof.
  intros Hrate Hi. split; [|split].
  - unfold Main.checkpoint_due.
    destruct (Z.ltb_spec 0 i_episode) as [_|?]; [|lia].
    destruct (Z.eqb_spec checkpoint_rate 0) as [?|_]; [lia|].
    destruct (Z.eqb_spec (- checkpoint_rate) 0) as [?|_]; [lia|].
    f_equal.
    destruct (Z.eqb_spec (i_episode mod checkpoint_rate) 0) as [Hm|Hm];
      destruct (Z.eqb_spec (i_episode mod - checkpoint_rate) 0) as [Hm'|Hm']; try done.
    + exfalso. apply Hm'. apply Z.mod_divide; [lia|].
      apply (proj2 (Z.divide_opp_l checkpoint_rate i_episode)).
      apply Z.mod_divide; [lia|done].
    + exfalso. apply Hm. apply Z.mod_divide; [lia|].
      apply (proj1 (Z.divide_opp_l checkpoint_rate i_episode)).
      apply Z.mod_divide; [lia|done].
  - intros (_ & Hnz & [q ->])%checkpoint_due_true. unfold Main.checkpoint_number.
    rewrite Z.div_mul by done.
    replace (q * checkpoint_rate) with ((- q) * (- checkpoint_rate)) by lia.
    rewrite Z.div_mul by lia. split; [lia|]. nia.
  - intros ->. split.
    + apply checkpoint_due_true. split; [done|]. split; [done|].
      exists (- i_episode). lia.
    + unfold Main.checkpoint_number.
      replace i_episode with ((- i_episode) * -1) at 1 by lia. by rewrite Z.div_mul.
Qed.

(** X20.  With a positive rate, over the episodes [0 <= i < n_episodes] of
    the loop of line 35: the episodes with a checkpoint are the multiples
    [j * rate] with [1 <= j <= (n_episodes - 1) / rate], episode [j * rate]
    writes number [j], so the numbers are 1, 2, ... without gap or repeat;
    with [n_episodes <= rate] (as with the two defaults, 100 and 100) no
    episode writes a checkpoint. *)
Theorem checkpoint_numbers n_episodes checkpoint_rate :
  0 < checkpoint_rate →
  (∀ i, 0 <= i < n_episodes →
     Main.checkpoint_due i checkpoint_rate = Ok true →
     1 <= Main.checkpoint_number i checkpoint_rate <= (n_episodes - 1) / checkpoint_rate
     ∧ i = Main.checkpoint_number i checkpoint_rate * checkpoint_rate)
  ∧ (∀ j, 1 <= j <= (n_episodes - 1) / checkpoint_rate →
       0 <= j * checkpoint_rate < n_episodes
       ∧ Main.checkpoint_due (j * checkpoint_rate) checkpoint_rate = Ok true
       ∧ Main.checkpoint_number (j * checkpoint_rate) checkpoint_rate = j)
  ∧ (n_episodes <= checkpoint_rate →
       ∀ i, 0 <= i < n_episodes → Main.checkpoint_due i checkpoint_rate = Ok false).
Proof.
  intros Hrate. split; [|split].
  - intros i Hi (Hpos & _ & [q ->])%checkpoint_due_true.
    unfold Main.checkpoint_number. rewrite Z.div_mul by lia.
    split; [|done]. split; [nia|].
    apply Z.div_le_lower_bound; [done|]. nia.
  - intros j [Hj Hjmax].
    assert (Hmul : checkpoint_rate * ((n_episodes - 1) / checkpoint_rate) <= n_episodes - 1)
      by (apply Z.mul_div_le; lia).
    split; [nia|]. split.
    + apply checkpoint_due_true. split; [nia|]. split; [lia|]. by exists j.
    + unfold Main.checkpoint_number. by rewrite Z.div_mul by lia.
  - intros Hn i Hi. unfold Main.checkpoint_due.
    destruct (Z.ltb_spec 0 i) as [Hpos|_]; [|done].
    destruct (Z.eqb_spec checkpoint_rate 0) as [?|_]; [lia|].
    rewrite Z.mod_small by lia.
    destruct (Z.eqb_spec i 0) as [?|_]; [lia|done].
Qed.
End checkpoints.

(** ** ObservationDict: proper use never raises *)

(** X22.  A table that was created, read only with keys of [k >= 1]
    coordinates and written only through returned references and in range:
    every further [get] with a key of [k] coordinates returns a reference to a
    leaf of [n_actions] elements; it never raises and never returns a dict or
    a number. *)
Theorem reachable_get_returns_leaf {A : Type} `{Number A} {E : Type} `{Dtype E}
    {bucketer : option (MultiBucketer.t A)} (self : t bucketer) (k : nat)
    (h : heap E) (obs : observation bucketer) keys :
  1 ≤ k → reachable self k h →
  discretise self obs = Ok keys → length keys = k →
  ∃ l h' elements,
    get self obs h = (Ok (Ref l), h')
    ∧ h' !! l = Some (Array elements) ∧ length elements = n_actions self
    ∧ reachable self k h'.
Proof.
  intros Hk Hreach Hkeys Hlen.
  destruct (reachable_table_inv self k h Hk Hreach) as [Hinv Huni].
  destruct (get_table self k obs keys h Hinv Huni Hkeys Hlen)
    as (l & h' & elements & Hget & _ & _ & Hl & Hn).
  exists l, h', elements. repeat (split; [done|]).
  by eapply reachable_get.
Qed.

(** ** binary64: a NaN is in no bucket *)

Lemma float_leb_nan (x : float) : PrimFloat.leb x nan = false.
Proof.
  rewrite leb_spec. replace (Prim2SF nan) with S754_nan by reflexivity.
  unfold SFleb, SFcompare. by destruct (Prim2SF x).
Qed.

(** X21.  In binary64 every comparison with NaN is false, so a NaN value
    matches no bucket: with [n_buckets > 0] the result is the fallthrough,
    [n_buckets] when [n_buckets - 1] equals [upper_bound] and [-1]
    otherwise. *)
Theorem get_bucketed_nan (self : Bucketer.t float) :
  (0 < Bucketer.n_buckets self)%Z →
  Bucketer.get_bucketed self nan = Ok (fallthrough self).
Proof.
  intros Hn. apply get_bucketed_no_match; [done|]. intros i Hi.
  unfold Bucketer.in_bucket. simpl. by rewrite float_leb_nan.
Qed.

(** ** The further theorems at concrete inputs *)

(** X2 at [Bucketer(0, 4, 5)] and the value 4.0, in binary64: the result is
    [n_buckets] itself. *)
Lemma get_bucketed_result_bounds_at_quirk :
  (-1 <= 5 <= Bucketer.n_buckets (A:=float) quirk_bucketer)%Z.
Proof.
  exact (proj1 (get_bucketed_result_bounds (A:=float) quirk_bucketer 4%float 5%Z eq_refl)).
Defined.

(** X3 at [Bucketer(5, 10, 5)] and the value 12, beyond the upper bound. *)
Lemma get_bucketed_exact_floor_at_shifted :
  Bucketer.get_bucketed (A:=Q) shifted_bucketer 12%Q = Ok 2%Z.
Proof.
  refine (proj1 (get_bucketed_exact_floor shifted_bucketer eq_refl 12%Q _ _)).
  - vm_compute. discriminate.
  - reflexivity.
Defined.

(** X4 at [Bucketer(0, 10, 5)] and the value 10. *)
Lemma get_bucketed_exact_outside_at_decade :
  Bucketer.get_bucketed (A:=Q) decade_bucketer 10%Q = Ok (-1)%Z.
Proof.
  refine (proj1 (get_bucketed_exact_outside decade_bucketer eq_refl 10%Q _)).
  right. vm_compute. discriminate.
Defined.

(** X5 at [Bucketer(0, 4, 5)]: the upper bound 4 gets [n_buckets = 5]. *)
Lemma get_bucketed_exact_at_upper_bound_quirk :
  Bucketer.get_bucketed (A:=Q) quirk_bucketer 4%Q = Ok 5%Z.
Proof.
  refine (proj2 (proj2 (get_bucketed_exact_at_upper_bound quirk_bucketer eq_refl _ _)) _).
  - vm_compute. discriminate.
  - vm_compute. discriminate.
  - reflexivity.
Defined.


(** X8 at [MultiBucketer([0, -5], [10, 5], 5)] and [[2.0, 7.0]]: the second
    key is the fallthrough [-1]. *)
Lemma multi_keys_between_at_pair :
  MultiBucketer.get_bucketed (A:=float) pair_bucketer [2; 7]%float = Ok [1; -1]%Z
  ∧ (-1 <= -1 <= 5)%Z.
Proof.
  split; [reflexivity|].
  refine (multi_keys_between (A:=float) [0; -5]%float [10; 5]%float 5 pair_bucketer
            [2; 7]%float [1; -1]%Z eq_refl eq_refl (-1)%Z _).
  apply list_elem_of_In. simpl. auto.
Defined.

(** X9 at the same multi-bucketer: replacing the second value of [[2.0, 0.0]]. *)
Lemma multi_coordinates_independent_at_pair :
  length [1; -1]%Z = length [1; 2]%Z ∧ ∀ i, i ≠ 1 → [1; -1]%Z !! i = [1; 2]%Z !! i.
Proof.
  exact (multi_coordinates_independent (A:=float) pair_bucketer [2; 0]%float [1; 2]%Z
           1 7%float [1; -1]%Z eq_refl eq_refl).
Defined.

(** X10 at the same multi-bucketer: the first value of [[2.0, 0.0]] alone. *)
Lemma multi_get_bucketed_prefix_at_pair :
  MultiBucketer.get_bucketed (A:=float) pair_bucketer [2]%float = Ok [1]%Z.
Proof.
  exact (multi_get_bucketed_prefix (A:=float) pair_bucketer [2; 0]%float [1; 2]%Z 1 eq_refl).
Defined.

(** X11: in the table that holds a leaf for [[1, 2]], the key [[1, 2, 5]]
    raises IndexError. *)
Lemma get_raise_leaves_heap_at_plain :
  (get plain_table.1 [1; 2; 5]%Z plain_heap_12).2 = plain_heap_12.
Proof.
  apply (get_raise_leaves_heap plain_table.1 ([1; 2; 5]%Z : observation None)
           plain_heap_12 IndexError).
  vm_compute. reflexivity.
Defined.

(** X12 in the same table: the key [[1, 2]] is present and leads to
    location 2. *)
Lemma get_hit_iff_present_at_plain :
  get plain_table.1 [1; 2]%Z plain_heap_12 = (Ok (Ref 2), plain_heap_12).
Proof.
  apply (proj2 (get_hit_iff_present plain_table.1 ([1; 2]%Z : observation None)
                  [1; 2]%Z plain_heap_12 2 eq_refl)).
  vm_compute. reflexivity.
Defined.

(** X13 in the same table: the key [[1, 3]] misses at its second
    coordinate and allocates one object. *)
Lemma get_allocates_at_plain :
  length (get plain_table.1 [1; 3]%Z plain_heap_12).2 = length plain_heap_12 + 1.
Proof.
  exact (proj1 (get_allocates plain_table.1 ([1; 3]%Z : observation None) [1; 3]%Z
                  plain_heap_12 _ _ eq_refl eq_refl)).
Defined.

(** X14 in the same table: the key [[1, 3]] is not there. *)
Lemma get_miss_creates_leaf_at_plain :
  ∃ l h', get plain_table.1 [1; 3]%Z plain_heap_12 = (Ok (Ref l), h')
        ∧ getitem l 1 h' = Some 0%float.
Proof.
  destruct (get_miss_creates_leaf plain_table.1 ([1; 3]%Z : observation None) [1; 3]%Z
              plain_heap_12 eq_refl eq_refl) as [Hleaf _].
  exists 3, (get plain_table.1 [1; 3]%Z plain_heap_12).2.
  assert (Hget : get plain_table.1 [1; 3]%Z plain_heap_12
                 = (Ok (Ref 3), (get plain_table.1 [1; 3]%Z plain_heap_12).2))
    by (vm_compute; reflexivity).
  split; [exact Hget|].
  apply (proj2 (proj2 (Hleaf _ _ Hget))). simpl. lia.
Defined.

(** X15: write 5.0 into the leaf of [[1, 2]], look up [[1, 3]], and the
    leaf of [[1, 2]] still holds it. *)
Lemma write_survives_later_gets_at_plain :
  ∃ h2 h3,
    setitem 2 1 (PyFloat 5) plain_heap_12 = Some h2
    ∧ get plain_table.1 [1; 2]%Z h3 = (Ok (Ref 2), h3)
    ∧ getitem 2 1 h3 = getitem 2 1 h2
    ∧ ∃ e, cast (PyFloat 5) = Some e ∧ getitem 2 1 h3 = Some e.
Proof.
  eexists _, _. split; [reflexivity|].
  eapply (write_survives_later_gets plain_table.1
            ([1; 2]%Z : observation None) ([1; 3]%Z : observation None)
            plain_table.2 2 plain_heap_12 1 (PyFloat 5)).
  - reflexivity.
  - reflexivity.
  - reflexivity.
Defined.

(** X16 on the table with [MultiBucketer([0, -5], [10, 5], 5)]: [[2.0, 0.0]]
    and [[2.5, 0.3]] both have the key [[1, 2]]. *)
Lemma same_key_same_object_at_bucketed :
  ∃ l h1, get bucketed_table.1 [2; 0]%float bucketed_table.2 = (Ok (Ref l), h1)
        ∧ get bucketed_table.1 [2.5; 0.3]%float h1 = (Ok (Ref l), h1).
Proof.
  eexists _, _. split; [reflexivity|].
  eapply (same_key_same_object bucketed_table.1
            ([2; 0]%float : observation (Some pair_bucketer))
            ([2.5; 0.3]%float : observation (Some pair_bucketer))
            [1; 2]%Z bucketed_table.2).
  - reflexivity.
  - reflexivity.
  - reflexivity.
Defined.

(** X17 in the table that holds a leaf for [[1, 2]]: the key [[1, 2, -1]]
    reads the last element of that leaf. *)
Lemma get_past_leaf_at_plain :
  get plain_table.1 [1; 2; -1]%Z plain_heap_12 = (Ok (Scalar 0%float), plain_heap_12).
Proof.
  exact (proj1 (get_past_leaf plain_table.1 ([1; 2; -1]%Z : observation None)
                  [1; 2]%Z (-1)%Z plain_heap_12 2 [0; 0]%float eq_refl eq_refl) eq_refl).
Defined.

(** X19 at episode 3 and the rate -1. *)
Lemma checkpoint_negative_rate_at_minus_one :
  Main.checkpoint_due 3 (-1) = Ok true ∧ Main.checkpoint_number 3 (-1) = (-3)%Z.
Proof.
  exact (proj2 (proj2 (checkpoint_negative_rate 3 (-1) eq_refl eq_refl)) eq_refl).
Defined.

(** X20 with 250 episodes and the rate 100: checkpoint 2 is written in
    episode 200. *)
Lemma checkpoint_numbers_at_250 :
  (0 <= 2 * 100 < 250)%Z
  ∧ Main.checkpoint_due (2 * 100) 100 = Ok true
  ∧ Main.checkpoint_number (2 * 100) 100 = 2%Z.
Proof.
  refine (proj1 (proj2 (checkpoint_numbers 250 100 eq_refl)) 2%Z _).
  split; vm_compute; discriminate.
Defined.

(** X21 at [Bucketer(0, 10, 5)]. *)
Lemma get_bucketed_nan_at_decade :
  Bucketer.get_bucketed (A:=float) decade_bucketer nan = Ok (-1)%Z.
Proof. exact (get_bucketed_nan decade_bucketer eq_refl). Defined.

(** X22: the new table after [get([1, 2])], asked for [[1, 3]]. *)
Lemma reachable_get_returns_leaf_at_plain :
  ∃ l h' elements,
    get plain_table.1 [1; 3]%Z plain_heap_12 = (Ok (Ref l), h')
    ∧ h' !! l = Some (Array elements) ∧ length elements = 2
    ∧ reachable plain_table.1 2 h'.
Proof.
  apply (reachable_get_returns_leaf plain_table.1 2 plain_heap_12
           ([1; 3]%Z : observation None) [1; 3]%Z).
  - lia.
  - eapply (reachable_get plain_table.1 2 plain_table.2 ([1; 2]%Z : observation None)
              [1; 2]%Z (Ok (Ref 2)) plain_heap_12).
    + by apply reachable_init.
    + reflexivity.
    + reflexivity.
    + reflexivity.
  - reflexivity.
  - reflexivity.
Defined.
